(** * ot.py: operational transformation on plain text

    A shallow embedding of [ot/text_operation.py] and the proofs of its
    algebraic laws: application, inversion, composition and transformation
    of text operations.

    Conventions of the embedding.
    - A Python [str] is a [list ascii]; [len], slicing and [+] become
      [length], [firstn]/[skipn] and [++].
    - The counts carried by [Retain] and [Delete] are naturals: [len(op)]
      is only defined for a non-negative [__len__].  It is also only
      defined up to [sys.maxsize]; the methods are modelled on operations
      whose lengths fit, and [invert_checked] spells the check of [len]
      out for [invert].
    - A method that can raise returns a [result]; the exception class and
      its message are kept.
    - The [while True] loops of [compose] and [transform] are one step
      function each, iterated by well-founded recursion on the number of
      elements still to be read. *)

From Equations Require Import Equations.
From Equations.Prop Require Import Logic.
From Stdlib Require Import Ascii String List Arith NArith ZArith Lia Bool.
Import ListNotations.

Set Implicit Arguments.

(** ** Exceptions and results *)

Inductive exn : Type :=
| Exception (msg : string)
| IncompatibleOperationError (msg : string)
| TypeError (msg : string)
| OverflowError (msg : string).

Inductive result (A : Type) : Type :=
| Ok (v : A)
| Raise (e : exn).

Arguments Ok {A} v.
Arguments Raise {A} e.

(** A Python string literal. *)
Definition text (s : string) : list ascii := list_ascii_of_string s.

(** [doc[i:j]] for non-negative [i] and [j]: never raises, clips at the end
    of [doc], empty when [j <= i]. *)
Definition slice (doc : list ascii) (i j : nat) : list ascii :=
  firstn (j - i) (skipn i doc).

(** ** The three operation classes *)

Inductive op : Type :=
| Retain (n : nat)
| Insert (str : list ascii)
| Delete (n : nat).

(** [__len__] *)
Definition len (o : op) : nat :=
  match o with
  | Retain n => n
  | Insert str => length str
  | Delete n => n
  end.

(** The [len_difference] method of the three classes. *)
Definition op_len_difference (o : op) : Z :=
  match o with
  | Retain _ => 0%Z
  | Insert _ => Z.of_nat (len o)
  | Delete _ => (- Z.of_nat (len o))%Z
  end.

(** [shorten], for [n <= len(self)]: [_shorten_ops] only ever calls it with
    [n < len(self)].  Beyond the length Python builds a negative count,
    which the naturals do not have. *)
Definition shorten (o : op) (n : nat) : op :=
  match o with
  | Retain m => Retain (m - n)
  | Insert str => Insert (skipn n str)
  | Delete m => Delete (m - n)
  end.

(** [self.__class__ == other.__class__] *)
Definition same_class (o1 o2 : op) : bool :=
  match o1, o2 with
  | Retain _, Retain _ => true
  | Insert _, Insert _ => true
  | Delete _, Delete _ => true
  | _, _ => false
  end.

(** [merge]; [append] calls it on two operations of one class only, the
    last case is never reached from there. *)
Definition merge (self other : op) : op :=
  match self, other with
  | Retain n, Retain m => Retain (n + m)
  | Insert s, Insert t => Insert (s ++ t)
  | Delete n, Delete m => Delete (n + m)
  | _, _ => self
  end.

(** [str.__eq__] *)
Fixpoint str_eq (s1 s2 : list ascii) : bool :=
  match s1, s2 with
  | [], [] => true
  | c1 :: s1', c2 :: s2' => Ascii.eqb c1 c2 && str_eq s1' s2'
  | _, _ => false
  end.

(** The [__eq__] method of the three classes:
    [isinstance(other, C) and self.n == other.n] (or [.str]). *)
Definition op_eq (self other : op) : bool :=
  match self, other with
  | Retain n, Retain m => n =? m
  | Insert s, Insert t => str_eq s t
  | Delete n, Delete m => n =? m
  | _, _ => false
  end.

(** [_shorten_ops]: [None] stands for a fully consumed operation. *)
Definition _shorten_ops (a b : op) : option op * option op :=
  let len_a := len a in
  let len_b := len b in
  if len_a =? len_b then (None, None)
  else if len_b <? len_a then (Some (shorten a len_b), None)
  else (None, Some (shorten b len_a)).

(** ** Python lists and iterators *)

(** [l.pop()] on a non-empty list: the list without its last element, and
    that element. *)
Fixpoint pop (A : Type) (l : list A) : option (list A * A) :=
  match l with
  | [] => None
  | x :: r =>
      match pop r with
      | None => Some ([], x)
      | Some (init, z) => Some (x :: init, z)
      end
  end.

(** [next(it, None)] *)
Definition next (it : list op) : option op * list op :=
  match it with
  | [] => (None, [])
  | x :: r => (Some x, r)
  end.

(** [if cur == None: cur = next(it, None)] *)
Definition fetch (cur : option op) (it : list op) : option op * list op :=
  match cur with
  | Some _ => (cur, it)
  | None => next it
  end.

(** What a loop of [compose] or [transform] does at the end of one turn. *)
Inductive control (S R : Type) : Type :=
| Continue (s : S)
| Break (r : R)
| Raised (e : exn).

Arguments Continue {S R} s.
Arguments Break {S R} r.
Arguments Raised {S R} e.

(** The two iterators with their pending elements [a] and [b]. *)
Record cursors : Type := Cursors {
  a : option op;
  iter_a : list op;
  b : option op;
  iter_b : list op
}.

(** Elements not yet consumed on either side. *)
Definition pending (cur : option op) (it : list op) : nat :=
  match cur with
  | Some _ => 1 + length it
  | None => length it
  end.

Definition remaining (c : cursors) : nat :=
  pending (a c) (iter_a c) + pending (b c) (iter_b c).

(** ** TextOperation *)

Module TextOperation.

Definition t : Type := list op.

(** [len_difference] *)
Definition len_difference (self : t) : Z :=
  fold_right Z.add 0%Z (map op_len_difference self).

(** [append]: drops an empty operation, merges into a last element of the
    same class. *)
Definition append (self : t) (o : op) : t :=
  if len o =? 0 then self
  else
    match pop self with
    | Some (init, last) =>
        if same_class last o then init ++ [merge last o] else self ++ [o]
    | None => self ++ [o]
    end.

Definition too_long : string :=
  "Cannot apply operation: operation is too long."%string.
Definition too_short : string :=
  "Cannot apply operation: operation is too short."%string.

(** The [for] loop of [__call__], with the cursor [i] and the list [parts]. *)
Fixpoint call_loop (ops : list op) (doc : list ascii) (i : nat)
    (parts : list (list ascii)) : result (nat * list (list ascii)) :=
  match ops with
  | [] => Ok (i, parts)
  | Retain n :: ops' =>
      if length doc <? i + n then Raise (Exception too_long)
      else call_loop ops' doc (i + n) (parts ++ [slice doc i (i + n)])
  | Insert str :: ops' => call_loop ops' doc i (parts ++ [str])
  | Delete n :: ops' =>
      if length doc <? i + n then Raise (IncompatibleOperationError too_long)
      else call_loop ops' doc (i + n) parts
  end.

(** [__call__]: apply the operation to [doc]. *)
Definition call (self : t) (doc : list ascii) : result (list ascii) :=
  match call_loop self doc 0 [] with
  | Raise e => Raise e
  | Ok (i, parts) =>
      if i =? length doc then Ok (concat parts)
      else Raise (IncompatibleOperationError too_short)
  end.

(** The [for] loop of [invert]. *)
Fixpoint invert_loop (ops : list op) (doc : list ascii) (i : nat)
    (inverse : t) : t :=
  match ops with
  | [] => inverse
  | Retain n :: ops' => invert_loop ops' doc (i + n) (append inverse (Retain n))
  | Insert str :: ops' =>
      invert_loop ops' doc i (append inverse (Delete (length str)))
  | Delete n :: ops' =>
      invert_loop ops' doc (i + n) (append inverse (Insert (slice doc i (i + n))))
  end.

(** [invert], on operations whose lengths fit an index: apart from the
    range check of [len], which [invert_checked] below adds, no statement of
    it raises. *)
Definition invert (self : t) (doc : list ascii) : result t :=
  Ok (invert_loop self doc 0 []).

Definition index_overflow : string :=
  "cannot fit 'int' into an index-sized integer"%string.

(** The builtin [len(op)]: it calls [op.__len__()] and raises OverflowError
    when the result is above [sys.maxsize], here [maxsize]. *)
Definition builtin_len (maxsize : N) (o : op) : result nat :=
  if (N.of_nat (len o) <=? maxsize)%N then Ok (len o)
  else Raise (OverflowError index_overflow).

(** To run [k] on the value of [r], or to pass on what [r] raises. *)
Definition bind (A B : Type) (r : result A) (k : A -> result B) : result B :=
  match r with
  | Ok v => k v
  | Raise e => Raise e
  end.

(** [append], with its [len(op)] checked. *)
Definition append_checked (maxsize : N) (self : t) (o : op) : result t :=
  bind (builtin_len maxsize o) (fun n =>
  if n =? 0 then Ok self
  else
    match pop self with
    | Some (init, last) =>
        if same_class last o then Ok (init ++ [merge last o]) else Ok (self ++ [o])
    | None => Ok (self ++ [o])
    end).

(** The [for] loop of [invert], with every [len(op)] checked, in the order
    in which the source evaluates them. *)
Fixpoint invert_loop_checked (maxsize : N) (ops : list op) (doc : list ascii)
    (i : nat) (inverse : t) : result t :=
  match ops with
  | [] => Ok inverse
  | Retain n :: ops' =>
      bind (append_checked maxsize inverse (Retain n)) (fun inverse' =>
      bind (builtin_len maxsize (Retain n)) (fun k =>
      invert_loop_checked maxsize ops' doc (i + k) inverse'))
  | Insert str :: ops' =>
      bind (builtin_len maxsize (Insert str)) (fun k =>
      bind (append_checked maxsize inverse (Delete k)) (fun inverse' =>
      invert_loop_checked maxsize ops' doc i inverse'))
  | Delete n :: ops' =>
      bind (builtin_len maxsize (Delete n)) (fun k =>
      bind (append_checked maxsize inverse (Insert (slice doc i (i + k))))
        (fun inverse' =>
      bind (builtin_len maxsize (Delete n)) (fun k' =>
      invert_loop_checked maxsize ops' doc (i + k') inverse')))
  end.

(** [invert], with the checks of [len]. *)
Definition invert_checked (maxsize : N) (self : t) (doc : list ascii) :
    result t :=
  invert_loop_checked maxsize self doc 0 [].

Definition first_too_short : string :=
  "Cannot compose operations: first operation is too short"%string.
Definition first_too_long : string :=
  "Cannot compose operations: first operation is too long"%string.

(** One turn of the [while True] loop of [compose]; the tests come in the
    order of the source. *)
Definition compose_step (c : cursors) (operation : t) : control (cursors * t) t :=
  let (a, iter_a) := fetch (a c) (iter_a c) in
  let (b, iter_b) := fetch (b c) (iter_b c) in
  match a, b with
  | None, None => Break operation               (* if a == b == None: break *)
  | _, _ =>
      match a with
      | Some (Delete n) =>                       (* if isinstance(a, Delete) *)
          Continue (Cursors None iter_a b iter_b, append operation (Delete n))
      | _ =>
          match b with
          | Some (Insert str) =>                 (* if isinstance(b, Insert) *)
              Continue (Cursors a iter_a None iter_b, append operation (Insert str))
          | _ =>
              match a, b with
              | None, _ =>                       (* if a == None: raise *)
                  Raised (IncompatibleOperationError first_too_short)
              | _, None =>                       (* if b == None: raise *)
                  Raised (IncompatibleOperationError first_too_long)
              | Some a0, Some b0 =>
                  let min_len := min (len a0) (len b0) in
                  let operation :=
                    match a0, b0 with
                    | Retain _, Retain _ => append operation (Retain min_len)
                    | Insert str, Retain _ =>
                        append operation (Insert (firstn min_len str))
                    | Retain _, Delete _ => append operation (Delete min_len)
                    | _, _ => operation          (* Insert, Delete: nothing *)
                    end in
                  let (a, b) := _shorten_ops a0 b0 in
                  Continue (Cursors a iter_a b iter_b, operation)
              end
          end
      end
  end.

Lemma fetch_pending cur it :
  pending (fst (fetch cur it)) (snd (fetch cur it)) = pending cur it.
Proof. destruct cur as [o|]; [reflexivity|]. destruct it; reflexivity. Qed.

Lemma _shorten_ops_none a0 b0 :
  fst (_shorten_ops a0 b0) = None \/ snd (_shorten_ops a0 b0) = None.
Proof.
  unfold _shorten_ops. destruct (len a0 =? len b0); [now left|].
  destruct (len b0 <? len a0); [now right | now left].
Qed.

Lemma compose_step_decreases c operation c' operation' :
  compose_step c operation = Continue (c', operation') ->
  remaining c' < remaining c.
Proof.
  unfold compose_step, remaining.
  rewrite <- (fetch_pending (a c) (iter_a c)), <- (fetch_pending (b c) (iter_b c)).
  destruct (fetch (a c) (iter_a c)) as [x ia], (fetch (b c) (iter_b c)) as [y ib].
  destruct x as [[n|s|n]|], y as [[m|u|m]|]; try discriminate;
    try (intros [= <- _]; simpl; lia);
    match goal with
    | |- context [_shorten_ops ?p ?q] =>
        pose proof (_shorten_ops_none p q) as H;
        destruct (_shorten_ops p q) as [[x'|] [y'|]]; simpl in H;
        intros [= <- _]; simpl; destruct H; (discriminate || lia)
    end.
Qed.

(** The loop of [compose]: it ends because every turn consumes at least one
    pending element. *)
Equations? compose_loop (c : cursors) (operation : t) : result t
    by wf (remaining c) lt :=
  compose_loop c operation with inspect (compose_step c operation) := {
    | exist _ (Continue (c', operation')) _ => compose_loop c' operation';
    | exist _ (Break r) _ => Ok r;
    | exist _ (Raised e) _ => Raise e }.
Proof. eapply compose_step_decreases; eassumption. Qed.

(** [compose] *)
Definition compose (self other : t) : result t :=
  compose_loop (Cursors None self None other) [].

Definition none_has_no_len : string :=
  "object of type 'NoneType' has no len()"%string.

(** One turn of the [while True] loop of [transform].  The loop has no test
    for a side that ends before the other: [min(len(a), len(b))] is then
    asked of [None], and [len(None)] raises TypeError. *)
Definition transform_step (c : cursors) (primes : t * t) :
    control (cursors * (t * t)) (t * t) :=
  let (a, iter_a) := fetch (a c) (iter_a c) in
  let (b, iter_b) := fetch (b c) (iter_b c) in
  let (a_prime, b_prime) := primes in
  match a, b with
  | None, None => Break (a_prime, b_prime)       (* if a == b == None: break *)
  | _, _ =>
      match a with
      | Some (Insert str) =>                     (* if isinstance(a, Insert) *)
          Continue (Cursors None iter_a b iter_b,
                    (append a_prime (Insert str),
                     append b_prime (Retain (length str))))
      | _ =>
          match b with
          | Some (Insert str) =>                 (* if isinstance(b, Insert) *)
              Continue (Cursors a iter_a None iter_b,
                        (append a_prime (Retain (length str)),
                         append b_prime (Insert str)))
          | _ =>
              match a, b with
              | Some a0, Some b0 =>
                  let min_len := min (len a0) (len b0) in
                  let primes :=
                    match a0, b0 with
                    | Retain _, Retain _ =>
                        let min_retain := Retain min_len in
                        (append a_prime min_retain, append b_prime min_retain)
                    | Delete _, Retain _ =>
                        (append a_prime (Delete min_len), b_prime)
                    | Retain _, Delete _ =>
                        (a_prime, append b_prime (Delete min_len))
                    | _, _ => (a_prime, b_prime) (* Delete, Delete: nothing *)
                    end in
                  let (a, b) := _shorten_ops a0 b0 in
                  Continue (Cursors a iter_a b iter_b, primes)
              | _, _ =>                          (* len(None) *)
                  Raised (TypeError none_has_no_len)
              end
          end
      end
  end.

Lemma transform_step_decreases c primes c' primes' :
  transform_step c primes = Continue (c', primes') ->
  remaining c' < remaining c.
Proof.
  unfold transform_step, remaining.
  rewrite <- (fetch_pending (a c) (iter_a c)), <- (fetch_pending (b c) (iter_b c)).
  destruct (fetch (a c) (iter_a c)) as [x ia], (fetch (b c) (iter_b c)) as [y ib].
  destruct primes as [a_prime b_prime].
  destruct x as [[n|s|n]|], y as [[m|u|m]|]; try discriminate;
    try (intros [= <- _]; simpl; lia);
    match goal with
    | |- context [_shorten_ops ?p ?q] =>
        pose proof (_shorten_ops_none p q) as H;
        destruct (_shorten_ops p q) as [[x'|] [y'|]]; simpl in H;
        intros [= <- _]; simpl; destruct H; (discriminate || lia)
    end.
Qed.

(** The loop of [transform]. *)
Equations? transform_loop (c : cursors) (primes : t * t) : result (t * t)
    by wf (remaining c) lt :=
  transform_loop c primes with inspect (transform_step c primes) := {
    | exist _ (Continue (c', primes')) _ => transform_loop c' primes';
    | exist _ (Break r) _ => Ok r;
    | exist _ (Raised e) _ => Raise e }.
Proof. eapply transform_step_decreases; eassumption. Qed.

(** [transform], a static method. *)
Definition transform (operation_a operation_b : t) : result (t * t) :=
  transform_loop (Cursors None operation_a None operation_b) ([], []).

(** [__eq__]: [self.ops == other.ops], the equality of Python lists, which
    compares the lengths and then the elements with their [__eq__]. *)
Fixpoint eq (self other : t) : bool :=
  match self, other with
  | [], [] => true
  | o1 :: self', o2 :: other' => op_eq o1 o2 && eq self' other'
  | _, _ => false
  end.

(** [__add__]: [self + other] is [self.compose(other)]. *)
Definition add (self other : t) : result t := compose self other.

End TextOperation.

Import TextOperation.

Unset Implicit Arguments.

(** * Vocabulary of the laws *)

(** ** Applying an operation to the front of a document

    [run ops d] reads [ops] against the text [d] that lies at the cursor: it
    gives the text produced and the text left unread.  [__call__] is [run]
    on the whole document, with the demand that nothing is left. *)

Definition emit (p : list ascii) (r : result (list ascii * list ascii)) :
    result (list ascii * list ascii) :=
  match r with
  | Ok (o, rest) => Ok (p ++ o, rest)
  | Raise e => Raise e
  end.

Fixpoint run (ops : list op) (d : list ascii) :
    result (list ascii * list ascii) :=
  match ops with
  | [] => Ok ([], d)
  | Retain n :: ops' =>
      if length d <? n then Raise (Exception too_long)
      else emit (firstn n d) (run ops' (skipn n d))
  | Insert str :: ops' => emit str (run ops' d)
  | Delete n :: ops' =>
      if length d <? n then Raise (IncompatibleOperationError too_long)
      else run ops' (skipn n d)
  end.

(** Characters of the source read by an operation, and characters written. *)
Definition base_len (ops : list op) : nat :=
  fold_right Nat.add 0
    (map (fun o => match o with Insert _ => 0 | _ => len o end) ops).

Definition target_len (ops : list op) : nat :=
  fold_right Nat.add 0
    (map (fun o => match o with Delete _ => 0 | _ => len o end) ops).

(** [S] is valid against [D]: its Retain and Delete lengths sum to [len(D)]. *)
Definition valid (ops : list op) (doc : list ascii) : Prop :=
  base_len ops = length doc.

Definition nonzero (o : op) : Prop := len o <> 0.

(** The operations [invert] hands to [append], one for each element of
    [ops], read against the text [d] at the cursor. *)
Fixpoint inverse_ops (ops : list op) (d : list ascii) : list op :=
  match ops with
  | [] => []
  | Retain n :: ops' => Retain n :: inverse_ops ops' (skipn n d)
  | Insert str :: ops' => Delete (length str) :: inverse_ops ops' d
  | Delete n :: ops' => Insert (firstn n d) :: inverse_ops ops' (skipn n d)
  end.

(** A sequence obtained from the empty one by calls of [append]. *)
Inductive built : TextOperation.t -> Prop :=
| built_empty : built []
| built_append self o : built self -> built (append self o).

(** No two neighbours of one class. *)
Fixpoint alternating (ops : list op) : Prop :=
  match ops with
  | x :: (y :: _) as ops' => same_class x y = false /\ alternating ops'
  | _ => True
  end.

(** The pending element of an iterator, put back in front of it. *)
Definition unread (cur : option op) (it : list op) : list op :=
  match cur with
  | Some o => o :: it
  | None => it
  end.

(** The part of an operation that an aligned turn consumes. *)
Definition take (o : op) (m : nat) : op :=
  match o with
  | Retain _ => Retain m
  | Insert str => Insert (firstn m str)
  | Delete _ => Delete m
  end.


(** At the top of a turn: the side has nothing left, or an element
    pending that is not of some class. *)
Definition exhausted (cur : option op) (it : list op) : Prop :=
  fst (fetch cur it) = None.



(** The text an operation inserts before it reads anything. *)
Fixpoint leading_inserts (ops : list op) : list ascii :=
  match ops with
  | Insert str :: ops' => str ++ leading_inserts ops'
  | _ => []
  end.

(** The length of the operation fits an index: [len(op)] is defined. *)
Definition index_sized (maxsize : N) (o : op) : Prop :=
  (N.of_nat (len o) <= maxsize)%N.

(** [sys.maxsize] of CPython on a 64-bit platform. *)
Definition maxsize64 : N := 9223372036854775807%N.

(** The length of a pending element, 0 when there is none. *)
Definition pending_len (cur : option op) : nat :=
  match cur with
  | Some o => len o
  | None => 0
  end.

(** * Proofs *)

(** ** Lists used as Python lists *)

Lemma pop_snoc {A : Type} (l : list A) (x : A) : pop (l ++ [x]) = Some (l, x).
Proof.
  induction l as [|y l IH]; simpl; [reflexivity|]. now rewrite IH.
Qed.

Lemma pop_inv {A : Type} (l : list A) :
  match pop l with
  | None => l = []
  | Some (init, last) => l = init ++ [last]
  end.
Proof.
  induction l as [|y l IH]; simpl; [reflexivity|].
  destruct (pop l) as [[init last]|]; subst; reflexivity.
Qed.

Lemma firstn_plus {A : Type} (n m : nat) (l : list A) :
  firstn (n + m) l = firstn n l ++ firstn m (skipn n l).
Proof.
  revert l; induction n as [|n IH]; intros [|x l]; simpl;
    rewrite ?firstn_nil; try reflexivity.
  now rewrite IH.
Qed.

(** ** Applying an operation to the front of a document *)

Lemma emit_emit p q r : emit p (emit q r) = emit (p ++ q) r.
Proof. destruct r as [[o rest]|e]; simpl; [now rewrite app_assoc | reflexivity]. Qed.

Lemma emit_nil r : emit [] r = r.
Proof. now destruct r as [[o rest]|e]. Qed.

Lemma run_app x y d :
  run (x ++ y) d =
  match run x d with
  | Ok (o, rest) => emit o (run y rest)
  | Raise e => Raise e
  end.
Proof.
  revert d; induction x as [|[n|s|n] x IH]; intros d; simpl.
  - now rewrite emit_nil.
  - destruct (length d <? n); [reflexivity|]. rewrite IH.
    destruct (run x (skipn n d)) as [[o rest]|e]; simpl; [|reflexivity].
    now rewrite emit_emit.
  - rewrite IH. destruct (run x d) as [[o rest]|e]; simpl; [|reflexivity].
    now rewrite emit_emit.
  - destruct (length d <? n); [reflexivity|]. now rewrite IH.
Qed.

Lemma run_zero o d : len o = 0 -> run [o] d = Ok ([], d).
Proof.
  destruct o as [n|s|n]; simpl; intros H; subst; simpl; try reflexivity.
  apply length_zero_iff_nil in H. now subst.
Qed.

Lemma run_merge last o d :
  same_class last o = true -> run [merge last o] d = run [last; o] d.
Proof.
  destruct last as [n|s|n], o as [m|u|m]; try discriminate; intros _; simpl.
  - rewrite length_skipn.
    destruct (length d <? n + m) eqn:E1, (length d <? n) eqn:E2,
      (length d - n <? m) eqn:E3; simpl; try reflexivity;
      rewrite ?Nat.ltb_lt, ?Nat.ltb_ge in *; try lia.
    now rewrite firstn_plus, skipn_skipn, (Nat.add_comm m n), !app_nil_r.
  - now rewrite !app_nil_r.
  - rewrite length_skipn.
    destruct (length d <? n + m) eqn:E1, (length d <? n) eqn:E2,
      (length d - n <? m) eqn:E3; simpl; try reflexivity;
      rewrite ?Nat.ltb_lt, ?Nat.ltb_ge in *; try lia.
    now rewrite skipn_skipn, (Nat.add_comm m n).
Qed.

(** [append] writes what a plain [list.append] would: dropping an empty
    operation and merging two neighbours change nothing for [run]. *)
Lemma run_append acc o d : run (append acc o) d = run (acc ++ [o]) d.
Proof.
  unfold append. destruct (len o =? 0) eqn:E.
  - apply Nat.eqb_eq in E. rewrite run_app.
    assert (Z : forall r, run [o] r = Ok ([], r)) by (intros; now apply run_zero).
    destruct (run acc d) as [[o1 r1]|e]; [|reflexivity].
    rewrite Z. simpl. now rewrite app_nil_r.
  - pose proof (pop_inv acc) as P. destruct (pop acc) as [[init last]|]; [|reflexivity].
    destruct (same_class last o) eqn:C; [|reflexivity].
    subst acc. rewrite <- app_assoc. simpl. rewrite !run_app.
    destruct (run init d) as [[o1 r1]|e]; [|reflexivity].
    now rewrite (run_merge last o r1 C).
Qed.

Lemma run_fold_append l acc d :
  run (fold_left append l acc) d = run (acc ++ l) d.
Proof.
  revert acc; induction l as [|o l IH]; intros acc; simpl.
  - now rewrite app_nil_r.
  - rewrite IH, run_app, run_append, <- run_app, <- app_assoc. reflexivity.
Qed.

(** What a successful [run] consumed and produced. *)
Lemma run_ok_inv ops d o rest :
  run ops d = Ok (o, rest) ->
  rest = skipn (base_len ops) d /\ base_len ops + length rest = length d /\
  length o = target_len ops.
Proof.
  revert d o; induction ops as [|[n|s|n] ops IH]; intros d o;
    unfold base_len, target_len in *; simpl.
  - intros [= <- <-]. auto.
  - destruct (length d <? n) eqn:E; [discriminate|]. apply Nat.ltb_ge in E.
    destruct (run ops (skipn n d)) as [[o1 r1]|e] eqn:R; [|discriminate].
    intros [= <- <-]. apply IH in R. destruct R as (R1 & R2 & R3).
    rewrite skipn_skipn, length_skipn in *. rewrite (Nat.add_comm n).
    rewrite length_app, firstn_length_le by lia. repeat split; auto; lia.
  - destruct (run ops d) as [[o1 r1]|e] eqn:R; [|discriminate].
    intros [= <- <-]. apply IH in R. destruct R as (R1 & R2 & R3).
    rewrite length_app. repeat split; auto; lia.
  - destruct (length d <? n) eqn:E; [discriminate|]. apply Nat.ltb_ge in E.
    intros R. apply IH in R. destruct R as (R1 & R2 & R3).
    rewrite skipn_skipn, length_skipn in *. rewrite (Nat.add_comm n).
    repeat split; auto; lia.
Qed.

(** An operation that does not read past the end of the text runs. *)
Lemma run_total ops d :
  base_len ops <= length d ->
  exists o, run ops d = Ok (o, skipn (base_len ops) d).
Proof.
  revert d; induction ops as [|[n|s|n] ops IH]; intros d;
    unfold base_len in *; simpl; intros H.
  - eauto.
  - destruct (Nat.ltb_spec (length d) n); [lia|].
    destruct (IH (skipn n d)) as [o R]; [rewrite length_skipn; lia|].
    rewrite R, skipn_skipn, (Nat.add_comm n). simpl. eauto.
  - destruct (IH d H) as [o R]. rewrite R. simpl. eauto.
  - destruct (Nat.ltb_spec (length d) n); [lia|].
    destruct (IH (skipn n d)) as [o R]; [rewrite length_skipn; lia|].
    rewrite R, skipn_skipn, (Nat.add_comm n). eauto.
Qed.

Lemma run_valid ops d : valid ops d -> exists o, run ops d = Ok (o, []).
Proof.
  unfold valid; intros H. destruct (run_total ops d) as [o R]; [lia|].
  rewrite skipn_all2 in R by lia. eauto.
Qed.

(** [call_loop] from cursor [i] is [run] on [doc[i:]]. *)
Lemma call_loop_run ops doc i parts :
  i <= length doc ->
  match run ops (skipn i doc), call_loop ops doc i parts with
  | Ok (o, rest), Ok (j, parts') =>
      j + length rest = length doc /\ concat parts' = concat parts ++ o
  | Raise e, Raise e' => e = e'
  | _, _ => False
  end.
Proof.
  revert i parts; induction ops as [|[n|s|n] ops IH]; intros i parts Hi; simpl.
  - rewrite length_skipn, app_nil_r. split; [lia | reflexivity].
  - rewrite length_skipn.
    destruct (Nat.ltb_spec (length doc - i) n), (Nat.ltb_spec (length doc) (i + n));
      try lia; [reflexivity|].
    specialize (IH (i + n) (parts ++ [slice doc i (i + n)])).
    rewrite skipn_skipn, (Nat.add_comm n i). 
    destruct (run ops (skipn (i + n) doc)) as [[o rest]|e],
      (call_loop ops doc (i + n) _) as [[j parts']|e']; simpl; try (apply IH; lia).
    destruct IH as [IH1 IH2]; [lia|]. split; [assumption|].
    rewrite IH2, concat_app. simpl. unfold slice.
    replace (i + n - i) with n by lia. now rewrite app_nil_r, <- app_assoc.
  - specialize (IH i (parts ++ [s]) Hi).
    destruct (run ops (skipn i doc)) as [[o rest]|e],
      (call_loop ops doc i _) as [[j parts']|e']; simpl; try exact IH.
    destruct IH as [IH1 IH2]. split; [assumption|].
    rewrite IH2, concat_app. simpl. now rewrite app_nil_r, <- app_assoc.
  - rewrite length_skipn.
    destruct (Nat.ltb_spec (length doc - i) n), (Nat.ltb_spec (length doc) (i + n));
      try lia; [reflexivity|].
    specialize (IH (i + n) parts).
    rewrite skipn_skipn, (Nat.add_comm n i). apply IH. lia.
Qed.

(** [__call__] in terms of [run]. *)
Lemma call_run self doc :
  call self doc =
  match run self doc with
  | Ok (o, []) => Ok o
  | Ok (_, _ :: _) => Raise (IncompatibleOperationError too_short)
  | Raise e => Raise e
  end.
Proof.
  unfold call. pose proof (call_loop_run self doc 0 [] (Nat.le_0_l _)) as H.
  simpl in H.
  destruct (run self doc) as [[o rest]|e], (call_loop self doc 0 []) as [[j parts]|e'];
    try contradiction; [|now subst].
  destruct H as [H1 H2]. destruct rest as [|c rest]; simpl in *.
  - replace (j =? length doc) with true by (symmetry; apply Nat.eqb_eq; lia).
    now rewrite H2.
  - replace (j =? length doc) with false by (symmetry; apply Nat.eqb_neq; lia).
    reflexivity.
Qed.

Lemma call_ok_iff self doc out :
  call self doc = Ok out <-> run self doc = Ok (out, []).
Proof.
  rewrite call_run. destruct (run self doc) as [[o [|c rest]]|e]; split;
    intros H; try discriminate; now inversion H.
Qed.


(** ** Lengths read and written *)

Lemma base_len_app x y : base_len (x ++ y) = base_len x + base_len y.
Proof.
  unfold base_len. induction x as [|o x IH]; simpl; [reflexivity|].
  rewrite IH. lia.
Qed.

Lemma target_len_app x y : target_len (x ++ y) = target_len x + target_len y.
Proof.
  unfold target_len. induction x as [|o x IH]; simpl; [reflexivity|].
  rewrite IH. lia.
Qed.

Lemma len_difference_app x y :
  len_difference (x ++ y) = (len_difference x + len_difference y)%Z.
Proof.
  unfold len_difference. induction x as [|o x IH]; simpl; [reflexivity|].
  rewrite IH. lia.
Qed.

Lemma len_difference_lens self :
  len_difference self = (Z.of_nat (target_len self) - Z.of_nat (base_len self))%Z.
Proof.
  unfold len_difference, target_len, base_len.
  induction self as [|[n|s|n] self IH]; simpl fold_right; simpl op_len_difference;
    simpl len; rewrite ?IH; lia.
Qed.

(** [append] adds the lengths of the operation it is given, whether it
    drops it, merges it or stores it. *)
Ltac append_cases acc o :=
  unfold append;
  let E := fresh "E" in
  let P := fresh "P" in
  destruct (len o =? 0) eqn:E;
  [ apply Nat.eqb_eq in E
  | pose proof (pop_inv acc) as P;
    destruct (pop acc) as [[? ?]|];
    [ match goal with
      | |- context [same_class ?l o] =>
          let C := fresh "C" in destruct (same_class l o) eqn:C
      end
    | ] ].

Lemma base_len_append acc o :
  base_len (append acc o) = base_len acc + base_len [o].
Proof.
  append_cases acc o; subst; rewrite ?base_len_app; try reflexivity.
  - destruct o; unfold base_len; simpl in *; lia.
  - destruct o0, o; try discriminate; unfold base_len; simpl; lia.
Qed.

Lemma target_len_append acc o :
  target_len (append acc o) = target_len acc + target_len [o].
Proof.
  append_cases acc o; subst; rewrite ?target_len_app; try reflexivity.
  - destruct o; unfold target_len; simpl in *; lia.
  - destruct o0, o; try discriminate; unfold target_len; simpl;
      rewrite ?length_app; lia.
Qed.

Lemma len_difference_append acc o :
  len_difference (append acc o) = (len_difference acc + op_len_difference o)%Z.
Proof.
  rewrite !len_difference_lens, base_len_append, target_len_append.
  destruct o; unfold base_len, target_len; simpl; lia.
Qed.

(** ** Inversion *)

Lemma invert_loop_fold ops doc i inverse :
  invert_loop ops doc i inverse =
  fold_left append (inverse_ops ops (skipn i doc)) inverse.
Proof.
  revert i inverse; induction ops as [|[n|s|n] ops IH]; intros i inverse; simpl.
  - reflexivity.
  - now rewrite IH, skipn_skipn, (Nat.add_comm n i).
  - now rewrite IH.
  - rewrite IH, skipn_skipn, (Nat.add_comm n i). unfold slice.
    now replace (i + n - i) with n by lia.
Qed.

Lemma fold_append_base_len l acc :
  base_len (fold_left append l acc) = base_len acc + base_len l.
Proof.
  revert acc; induction l as [|o l IH]; intros acc; simpl.
  - unfold base_len at 3. simpl. lia.
  - rewrite IH, base_len_append. change (o :: l) with ([o] ++ l).
    rewrite (base_len_app [o] l). lia.
Qed.

Lemma fold_append_len_difference l acc :
  len_difference (fold_left append l acc) =
  (len_difference acc + len_difference l)%Z.
Proof.
  revert acc; induction l as [|o l IH]; intros acc; simpl.
  - unfold len_difference at 3. simpl. lia.
  - rewrite IH, len_difference_append. unfold len_difference at 4. simpl.
    unfold len_difference. lia.
Qed.

Lemma inverse_ops_base_len ops d : base_len (inverse_ops ops d) = target_len ops.
Proof.
  revert d; induction ops as [|[n|s|n] ops IH]; intros d;
    unfold base_len, target_len in *; simpl; rewrite ?IH; reflexivity.
Qed.

Lemma inverse_ops_len_difference ops d :
  base_len ops <= length d ->
  len_difference (inverse_ops ops d) = (- len_difference ops)%Z.
Proof.
  revert d; induction ops as [|[n|s|n] ops IH]; intros d;
    unfold base_len, len_difference in *; simpl; intros H.
  - reflexivity.
  - rewrite IH; [lia | rewrite length_skipn; lia].
  - rewrite IH; [lia | assumption].
  - rewrite IH; [|rewrite length_skipn; lia].
    rewrite firstn_length_le by lia. lia.
Qed.

Lemma firstn_front (p q : list ascii) n : length p = n -> firstn n (p ++ q) = p.
Proof.
  intros <-. rewrite firstn_app, firstn_all, Nat.sub_diag. simpl.
  apply app_nil_r.
Qed.

Lemma skipn_front (p q : list ascii) n : length p = n -> skipn n (p ++ q) = q.
Proof. intros <-. now rewrite skipn_app, skipn_all, Nat.sub_diag. Qed.

Lemma run_retain_front n ops p y :
  length p = n -> run (Retain n :: ops) (p ++ y) = emit p (run ops y).
Proof.
  intros H. simpl. rewrite length_app.
  destruct (Nat.ltb_spec (length p + length y) n); [lia|].
  now rewrite firstn_front, skipn_front.
Qed.

Lemma run_delete_front n ops p y :
  length p = n -> run (Delete n :: ops) (p ++ y) = run ops y.
Proof.
  intros H. simpl. rewrite length_app.
  destruct (Nat.ltb_spec (length p + length y) n); [lia|].
  now rewrite skipn_front.
Qed.

(** Running the inverse over what [ops] wrote gives back what [ops] read. *)
Lemma run_inverse_ops ops d o rest :
  run ops d = Ok (o, rest) ->
  exists c, d = c ++ rest /\ forall x, run (inverse_ops ops d) (o ++ x) = Ok (c, x).
Proof.
  revert d o; induction ops as [|[n|s|n] ops IH]; intros d o R; simpl in R;
    cbn [inverse_ops].
  - injection R as <- <-. exists []. auto.
  - destruct (Nat.ltb_spec (length d) n) as [|L]; [discriminate|].
    destruct (run ops (skipn n d)) as [[o1 r1]|e] eqn:R'; [|discriminate].
    injection R as <- <-. destruct (IH _ _ R') as (c & Hc & Hx).
    exists (firstn n d ++ c). split.
    + now rewrite <- app_assoc, <- Hc, firstn_skipn.
    + intros x. rewrite <- app_assoc.
      rewrite run_retain_front by (now apply firstn_length_le).
      rewrite Hx. reflexivity.
  - destruct (run ops d) as [[o1 r1]|e] eqn:R'; [|discriminate].
    injection R as <- <-. destruct (IH _ _ R') as (c & Hc & Hx).
    exists c. split; [assumption|]. intros x.
    rewrite <- app_assoc, run_delete_front by reflexivity. apply Hx.
  - destruct (Nat.ltb_spec (length d) n) as [|L]; [discriminate|].
    destruct (IH _ _ R) as (c & Hc & Hx).
    exists (firstn n d ++ c). split.
    + now rewrite <- app_assoc, <- Hc, firstn_skipn.
    + intros x. cbn [run]. rewrite Hx. reflexivity.
Qed.

Lemma invert_ok self doc :
  invert self doc = Ok (fold_left append (inverse_ops self doc) []).
Proof. unfold invert. now rewrite invert_loop_fold. Qed.

(** ** Laws of [__call__] and [invert] *)

(** The scenarios of the documentation on "hello". *)
Example call_hello_world :
  call [Retain 5; Insert (text " world")] (text "hello") = Ok (text "hello world").
Proof. reflexivity. Qed.

Example invert_delete_hello :
  call [Delete 5] (text "hello") = Ok [] /\
  invert [Delete 5] (text "hello") = Ok [Insert (text "hello")] /\
  call [Insert (text "hello")] [] = Ok (text "hello").
Proof. repeat split. Qed.

Example compose_hello :
  compose [Retain 2; Delete 3] [Retain 2; Insert (text "!")] =
    Ok [Retain 2; Delete 3; Insert (text "!")] /\
  call [Retain 2; Delete 3; Insert (text "!")] (text "hello") = Ok (text "he!").
Proof. repeat split. Qed.

(** C4, length accounting: when [S(D)] succeeds, the length of the output
    is [len(D)] plus the sum of [len_difference] over the operations of
    [S]. *)
Theorem call_length_accounting (S : TextOperation.t) (D out : list ascii) :
  call S D = Ok out ->
  Z.of_nat (length out) = (Z.of_nat (length D) + len_difference S)%Z.
Proof.
  intros H. apply call_ok_iff in H. apply run_ok_inv in H.
  destruct H as (_ & H2 & H3). simpl in H2.
  rewrite len_difference_lens. lia.
Qed.

Lemma call_length_accounting_witness :
  call [Retain 5; Insert (text " world")] (text "hello") = Ok (text "hello world") /\
  Z.of_nat (length (text "hello world")) =
  (Z.of_nat (length (text "hello")) +
   len_difference [Retain 5; Insert (text " world")])%Z.
Proof.
  split; [reflexivity|].
  apply (call_length_accounting [Retain 5; Insert (text " world")]).
  reflexivity.
Defined.

(** A valid operation applies. *)
Lemma call_valid S D : valid S D -> exists out, call S D = Ok out.
Proof.
  intros H. destruct (run_valid S D H) as [o R]. exists o.
  now apply call_ok_iff.
Qed.

(** [__call__] returns exactly on the valid operations. *)
Lemma call_ok_iff_valid S D : (exists out, call S D = Ok out) <-> valid S D.
Proof.
  split; [|apply call_valid]. intros [out H]. apply call_ok_iff in H.
  apply run_ok_inv in H. destruct H as (_ & H & _). unfold valid.
  simpl in H. lia.
Qed.

(** The three ways [__call__] can raise. *)
Lemma call_raises S D e :
  call S D = Raise e ->
  e = Exception too_long \/ e = IncompatibleOperationError too_long \/
  e = IncompatibleOperationError too_short.
Proof.
  rewrite call_run.
  assert (G : forall ops d e', run ops d = Raise e' ->
            e' = Exception too_long \/ e' = IncompatibleOperationError too_long).
  { induction ops as [|[n|s|n] ops IH]; intros d e'; simpl; try discriminate.
    - destruct (length d <? n); [intros [= <-]; auto|].
      destruct (run ops (skipn n d)) as [[o r]|e0] eqn:R; [discriminate|].
      intros [= <-]. eauto.
    - destruct (run ops d) as [[o r]|e0] eqn:R; [discriminate|].
      intros [= <-]. eauto.
    - destruct (length d <? n); [intros [= <-]; auto|]. eauto. }
  destruct (run S D) as [[o [|c r]]|e0] eqn:R; try discriminate.
  - intros [= <-]. auto.
  - intros [= <-]. destruct (G _ _ _ R); auto.
Qed.

(** C6, at the input where the code leaves the error taxonomy: a Retain
    that reaches past the end of the document raises a plain [Exception],
    not [IncompatibleOperationError] as the Delete branch does. *)
Theorem call_retain_too_long_raises_plain_exception :
  call [Retain 10] (text "hi") = Raise (Exception too_long) /\
  call [Delete 10] (text "hi") = Raise (IncompatibleOperationError too_long) /\
  forall msg, call [Retain 10] (text "hi") <> Raise (IncompatibleOperationError msg).
Proof.
  repeat split. intros msg. discriminate.
Qed.

(** C2, invert round-trip: for [S] valid against [D], [S.invert(D)] applied
    to [S(D)] gives [D] back. *)
Theorem invert_round_trip (S : TextOperation.t) (D : list ascii) :
  valid S D ->
  exists out inverse,
    call S D = Ok out /\ invert S D = Ok inverse /\ call inverse out = Ok D.
Proof.
  intros H. destruct (run_valid S D H) as [out R].
  exists out, (fold_left append (inverse_ops S D) []).
  split; [now apply call_ok_iff|]. split; [apply invert_ok|].
  apply call_ok_iff. rewrite run_fold_append. simpl.
  destruct (run_inverse_ops _ _ _ _ R) as (c & Hc & Hx).
  rewrite app_nil_r in Hc. subst c. specialize (Hx []).
  now rewrite app_nil_r in Hx.
Qed.

Lemma invert_round_trip_witness :
  valid [Retain 1; Delete 3; Insert (text "ipp"); Retain 1] (text "hello") /\
  exists out inverse,
    call [Retain 1; Delete 3; Insert (text "ipp"); Retain 1] (text "hello") = Ok out /\
    invert [Retain 1; Delete 3; Insert (text "ipp"); Retain 1] (text "hello") = Ok inverse /\
    call inverse out = Ok (text "hello").
Proof.
  split; [reflexivity|].
  apply (invert_round_trip [Retain 1; Delete 3; Insert (text "ipp"); Retain 1]).
  reflexivity.
Defined.

(** C9 as stated fails: [invert] with an operation longer than the document
    returns a sequence, it raises nothing. *)
Lemma invert_too_long_returns :
  length (text "hi") < base_len [Retain 10] /\
  invert [Retain 10] (text "hi") = Ok [Retain 10] /\
  length (text "hi") < base_len [Delete 5] /\
  invert [Delete 5] (text "hi") = Ok [Insert (text "hi")].
Proof. repeat split; unfold base_len; simpl; lia. Qed.

(** The checks of [len] in [invert]: they pass on operations that fit an
    index, and then [invert_checked] is [invert]. *)
Lemma builtin_len_fits maxsize o :
  index_sized maxsize o -> builtin_len maxsize o = Ok (len o).
Proof.
  unfold index_sized, builtin_len. intros H.
  now apply N.leb_le in H as ->.
Qed.

Lemma builtin_len_overflow maxsize o :
  (maxsize < N.of_nat (len o))%N ->
  builtin_len maxsize o = Raise (OverflowError index_overflow).
Proof.
  unfold builtin_len. intros H. now apply N.leb_gt in H as ->.
Qed.

Lemma append_checked_fits maxsize self o :
  index_sized maxsize o -> append_checked maxsize self o = Ok (append self o).
Proof.
  intros H. unfold append_checked, append.
  rewrite (builtin_len_fits _ _ H). simpl.
  destruct (len o =? 0); [reflexivity|].
  destruct (pop self) as [[init last]|]; [|reflexivity].
  now destruct (same_class last o).
Qed.

Lemma invert_loop_checked_fits maxsize ops doc :
  Forall (index_sized maxsize) ops ->
  forall i inverse,
    invert_loop_checked maxsize ops doc i inverse =
    Ok (invert_loop ops doc i inverse).
Proof.
  induction 1 as [|o ops Ho _ IH]; intros i inverse; [reflexivity|].
  destruct o as [n|s|n]; cbn [invert_loop_checked invert_loop].
  - rewrite (append_checked_fits _ _ _ Ho), (builtin_len_fits _ _ Ho).
    simpl. apply IH.
  - rewrite (builtin_len_fits _ _ Ho). cbn [bind len].
    rewrite (append_checked_fits maxsize inverse (Delete (length s)) Ho).
    simpl. apply IH.
  - rewrite (builtin_len_fits _ _ Ho). cbn [bind len].
    rewrite append_checked_fits.
    + simpl. apply IH.
    + unfold index_sized, slice in *. simpl in *. rewrite length_firstn. lia.
Qed.

Lemma invert_loop_checked_overflow maxsize ops doc :
  Exists (fun o => (maxsize < N.of_nat (len o))%N) ops ->
  forall i inverse,
    invert_loop_checked maxsize ops doc i inverse =
    Raise (OverflowError index_overflow).
Proof.
  induction ops as [|o ops IH]; intros E i inverse; [inversion E|].
  destruct (N.le_gt_cases (N.of_nat (len o)) maxsize) as [Ho|Ho].
  - assert (E' : Exists (fun o => (maxsize < N.of_nat (len o))%N) ops)
      by (inversion E; subst; [lia | assumption]).
    change (index_sized maxsize o) in Ho.
    destruct o as [n|s|n]; cbn [invert_loop_checked].
    + rewrite (append_checked_fits _ _ _ Ho), (builtin_len_fits _ _ Ho).
      simpl. now apply IH.
    + rewrite (builtin_len_fits _ _ Ho). cbn [bind len].
      rewrite (append_checked_fits maxsize inverse (Delete (length s)) Ho).
      simpl. now apply IH.
    + rewrite (builtin_len_fits _ _ Ho). cbn [bind len].
      rewrite append_checked_fits.
      * simpl. now apply IH.
      * unfold index_sized, slice in *. simpl in *. rewrite length_firstn. lia.
  - destruct o as [n|s|n]; cbn [invert_loop_checked]; unfold append_checked;
      now rewrite (builtin_len_overflow _ _ Ho).
Qed.

Lemma index_sized_dec maxsize ops :
  Forall (index_sized maxsize) ops \/
  Exists (fun o => (maxsize < N.of_nat (len o))%N) ops.
Proof.
  induction ops as [|o ops [IH|IH]]; [left; constructor | |right; now constructor].
  destruct (N.le_gt_cases (N.of_nat (len o)) maxsize) as [Ho|Ho].
  - left. now constructor.
  - right. now constructor.
Qed.

(** The operations that [invert] appends, cut at a Delete. *)
Lemma inverse_ops_app P Q d :
  inverse_ops (P ++ Q) d = inverse_ops P d ++ inverse_ops Q (skipn (base_len P) d).
Proof.
  revert d; induction P as [|[n|s|n] P IH]; intros d.
  - reflexivity.
  - change (base_len (Retain n :: P)) with (n + base_len P).
    cbn [app inverse_ops]. now rewrite IH, skipn_skipn, (Nat.add_comm n).
  - change (base_len (Insert s :: P)) with (base_len P).
    cbn [app inverse_ops]. now rewrite IH.
  - change (base_len (Delete n :: P)) with (n + base_len P).
    cbn [app inverse_ops]. now rewrite IH, skipn_skipn, (Nat.add_comm n).
Qed.

(** C9, amended: [invert] makes no check against the document and never
    raises IncompatibleOperationError.  The only exception it can raise is
    the OverflowError of [len(op)], and it raises it exactly when an
    operation of the sequence has a length above [sys.maxsize].  For every
    sequence whose lengths fit and every document, also when the sequence
    reads past the end of the document, it returns an inverse sequence,
    which reads as many characters as the sequence writes: it is made of the
    appends, in order, of a Retain(n) for a Retain(n), a Delete(len(s)) for
    an Insert(s) and, for a Delete(n) at cursor i, the Insert of the slice
    [document[i:i+n]], which is clipped at the end of the document to
    min(n, len(document) - i) characters instead of failing. *)
Theorem invert_raises_only_overflow (maxsize : N) (S : TextOperation.t)
    (D : list ascii) :
  (forall e, invert_checked maxsize S D = Raise e ->
     e = OverflowError index_overflow) /\
  (invert_checked maxsize S D = Raise (OverflowError index_overflow) <->
   Exists (fun o => (maxsize < N.of_nat (len o))%N) S) /\
  (Forall (index_sized maxsize) S ->
   exists inverse,
     invert_checked maxsize S D = Ok inverse /\
     invert S D = Ok inverse /\
     inverse = fold_left append (inverse_ops S D) [] /\
     base_len inverse = target_len S) /\
  (forall P n Q,
     S = P ++ Delete n :: Q ->
     inverse_ops S D =
       inverse_ops P D ++
       Insert (slice D (base_len P) (base_len P + n)) ::
       inverse_ops Q (skipn (base_len P + n) D) /\
     length (slice D (base_len P) (base_len P + n)) =
       min n (length D - base_len P)).
Proof.
  assert (Fits : Forall (index_sized maxsize) S ->
                 invert_checked maxsize S D =
                 Ok (fold_left append (inverse_ops S D) [])).
  { intros F. unfold invert_checked.
    now rewrite (invert_loop_checked_fits _ _ _ F), invert_loop_fold. }
  assert (Over : Exists (fun o => (maxsize < N.of_nat (len o))%N) S ->
                 invert_checked maxsize S D = Raise (OverflowError index_overflow))
    by (intros E; now apply invert_loop_checked_overflow).
  split; [|split; [|split]].
  - intros e H. destruct (index_sized_dec maxsize S) as [F|E].
    + rewrite (Fits F) in H. discriminate.
    + rewrite (Over E) in H. congruence.
  - split; [|exact Over]. intros H.
    destruct (index_sized_dec maxsize S) as [F|E]; [|exact E].
    rewrite (Fits F) in H. discriminate.
  - intros F. exists (fold_left append (inverse_ops S D) []).
    split; [exact (Fits F)|]. split; [apply invert_ok|]. split; [reflexivity|].
    now rewrite fold_append_base_len, inverse_ops_base_len.
  - intros P n Q ->. split.
    + rewrite inverse_ops_app. cbn [inverse_ops]. unfold slice.
      rewrite skipn_skipn, (Nat.add_comm n).
      now replace (base_len P + n - base_len P) with n by lia.
    + unfold slice. rewrite length_firstn, length_skipn. lia.
Qed.

Lemma invert_raises_only_overflow_witness :
  Forall (index_sized maxsize64) [Retain 1; Delete 5] /\
  length (text "hi") < base_len [Retain 1; Delete 5] /\
  exists inverse,
    invert_checked maxsize64 [Retain 1; Delete 5] (text "hi") = Ok inverse /\
    invert [Retain 1; Delete 5] (text "hi") = Ok inverse /\
    inverse = fold_left append (inverse_ops [Retain 1; Delete 5] (text "hi")) [] /\
    base_len inverse = target_len [Retain 1; Delete 5].
Proof.
  assert (F : Forall (index_sized maxsize64) [Retain 1; Delete 5])
    by (repeat constructor; unfold index_sized, maxsize64; simpl; lia).
  split; [exact F|]. split; [unfold base_len; simpl; lia|].
  exact (proj1 (proj2 (proj2
    (invert_raises_only_overflow maxsize64 [Retain 1; Delete 5] (text "hi")))) F).
Defined.

(** A count above [sys.maxsize]: [len] raises, whatever the document. *)
Example invert_overflow (D : list ascii) :
  invert_checked maxsize64 [Retain (N.to_nat 9223372036854775808)] D =
  Raise (OverflowError index_overflow).
Proof.
  apply invert_loop_checked_overflow. constructor. cbn [len].
  rewrite N2Nat.id. reflexivity.
Qed.

(** C10, invert negates the length delta: for [S] valid against [D],
    [S.invert(D).len_difference()] is the negation of
    [S.len_difference()]. *)
Theorem invert_negates_len_difference (S : TextOperation.t) (D : list ascii) :
  valid S D ->
  exists inverse,
    invert S D = Ok inverse /\ len_difference inverse = (- len_difference S)%Z.
Proof.
  intros H. exists (fold_left append (inverse_ops S D) []).
  split; [apply invert_ok|].
  rewrite fold_append_len_difference, inverse_ops_len_difference.
  - reflexivity.
  - unfold valid in H. lia.
Qed.

Lemma invert_negates_len_difference_witness :
  valid [Retain 1; Delete 3; Insert (text "i"); Retain 1] (text "hello") /\
  exists inverse,
    invert [Retain 1; Delete 3; Insert (text "i"); Retain 1] (text "hello") = Ok inverse /\
    len_difference inverse =
    (- len_difference [Retain 1; Delete 3; Insert (text "i"); Retain 1])%Z.
Proof.
  split; [reflexivity|].
  apply (invert_negates_len_difference [Retain 1; Delete 3; Insert (text "i"); Retain 1]).
  reflexivity.
Defined.

(** ** Normal form kept by [append] *)

Lemma alternating_snoc init last o :
  alternating (init ++ [last]) -> same_class last o = false ->
  alternating ((init ++ [last]) ++ [o]).
Proof.
  induction init as [|x init IH]; intros H C; [simpl; auto|].
  destruct init as [|y init].
  - simpl in *. destruct H; auto.
  - change (alternating (x :: y :: init ++ [last])) in H.
    change (alternating (x :: y :: (init ++ [last]) ++ [o])).
    destruct H as [H1 H2]. split; [exact H1 | now apply IH].
Qed.

Lemma alternating_merge init last o :
  alternating (init ++ [last]) -> same_class last o = true ->
  alternating (init ++ [merge last o]).
Proof.
  induction init as [|x init IH]; intros H C; [simpl; auto|].
  destruct init as [|y init].
  - simpl in *. destruct H as [H1 _]. split; [|exact I].
    destruct x, last, o; simpl in *; congruence.
  - change (alternating (x :: y :: init ++ [last])) in H.
    change (alternating (x :: y :: init ++ [merge last o])).
    destruct H as [H1 H2]. split; [exact H1 | now apply IH].
Qed.

Lemma append_alternating self o : alternating self -> alternating (append self o).
Proof.
  intros H. append_cases self o; subst; auto.
  - now apply alternating_merge.
  - apply alternating_snoc; [assumption|]. destruct (same_class _ o); congruence.
Qed.

Lemma built_alternating self : built self -> alternating self.
Proof.
  induction 1 as [|self o _ IH]; [exact I | now apply append_alternating].
Qed.

Lemma merge_len last o :
  same_class last o = true -> len (merge last o) = len last + len o.
Proof.
  destruct last, o; try discriminate; intros _; simpl; [|apply length_app|];
    reflexivity.
Qed.

Lemma append_same_class init last o :
  same_class last o = true ->
  append (init ++ [last]) o = init ++ [merge last o].
Proof.
  intros C. unfold append. rewrite pop_snoc, C.
  destruct (Nat.eqb_spec (len o) 0) as [E|]; [|reflexivity].
  f_equal. f_equal. destruct last, o; try discriminate; simpl in *.
  - now rewrite E, Nat.add_0_r.
  - apply length_zero_iff_nil in E. subst. now rewrite app_nil_r.
  - now rewrite E, Nat.add_0_r.
Qed.

(** C8, append keeps the normal form: on a sequence built by [append]
    calls, an operation of length zero changes nothing; an operation of the
    class of the last element replaces that element by the merge of the two
    (counts summed, texts concatenated), whose length is the sum of the two
    lengths; no two neighbours ever have the same class. *)
Theorem append_keeps_normal_form (self : TextOperation.t) :
  built self ->
  (forall o, len o = 0 -> append self o = self) /\
  (forall init last o,
     self = init ++ [last] -> same_class last o = true ->
     append self o = init ++ [merge last o] /\
     len (merge last o) = len last + len o) /\
  (forall n m, merge (Retain n) (Retain m) = Retain (n + m)) /\
  (forall s u, merge (Insert s) (Insert u) = Insert (s ++ u)) /\
  (forall n m, merge (Delete n) (Delete m) = Delete (n + m)) /\
  alternating self /\
  (forall o, alternating (append self o)).
Proof.
  intros B. repeat split.
  - intros o E. unfold append. now rewrite E.
  - subst. now apply append_same_class.
  - now apply merge_len.
  - now apply built_alternating.
  - intros o. apply append_alternating. now apply built_alternating.
Qed.

Lemma append_keeps_normal_form_witness :
  built (append (append [] (Retain 2)) (Insert (text "a"))) /\
  append (append (append [] (Retain 2)) (Insert (text "a"))) (Insert (text "b")) =
  [Retain 2; Insert (text "ab")] /\
  alternating (append (append (append [] (Retain 2)) (Insert (text "a")))
                 (Insert (text "b"))).
Proof.
  assert (B : built (append (append [] (Retain 2)) (Insert (text "a"))))
    by (do 2 apply built_append; apply built_empty).
  split; [exact B|].
  destruct (append_keeps_normal_form _ B) as (_ & H2 & _ & _ & _ & _ & H7).
  split; [|apply H7].
  exact (proj1 (H2 [Retain 2] (Insert (text "a")) (Insert (text "b"))
                  eq_refl eq_refl)).
Defined.

(** ** The loops of [compose] and [transform], one turn at a time *)

Lemma compose_loop_unfold c operation :
  compose_loop c operation =
  match compose_step c operation with
  | Continue (c', operation') => compose_loop c' operation'
  | Break r => Ok r
  | Raised e => Raise e
  end.
Proof.
  funelim (compose_loop c operation); try rewrite <- Heqcall;
    match goal with E : compose_step _ _ = _ |- _ => rewrite E end; reflexivity.
Qed.

Lemma transform_loop_unfold c primes :
  transform_loop c primes =
  match transform_step c primes with
  | Continue (c', primes') => transform_loop c' primes'
  | Break r => Ok r
  | Raised e => Raise e
  end.
Proof.
  funelim (transform_loop c primes); try rewrite <- Heqcall;
    match goal with E : transform_step _ _ = _ |- _ => rewrite E end; reflexivity.
Qed.

Lemma fetch_unread cur it :
  unread (fst (fetch cur it)) (snd (fetch cur it)) = unread cur it.
Proof. destruct cur as [o|]; [reflexivity|]. destruct it; reflexivity. Qed.

Lemma fetch_none cur it it' :
  fetch cur it = (None, it') -> cur = None /\ it = [] /\ it' = [].
Proof.
  destruct cur as [o|]; simpl; [discriminate|].
  destruct it; simpl; [|discriminate]. intros [= <-]. auto.
Qed.

Lemma run_cons o ops d :
  run (o :: ops) d =
  match run [o] d with
  | Ok (out, rest) => emit out (run ops rest)
  | Raise e => Raise e
  end.
Proof. exact (run_app [o] ops d). Qed.

Lemma run_zero_cons o ops d : len o = 0 -> run (o :: ops) d = run ops d.
Proof.
  intros H. rewrite run_cons, (run_zero o d H). apply emit_nil.
Qed.

Lemma run_split o m ops d :
  m <= len o -> run (o :: ops) d = run (take o m :: shorten o m :: ops) d.
Proof.
  intros H. change (take o m :: shorten o m :: ops)
    with ([take o m; shorten o m] ++ ops).
  rewrite run_cons, run_app.
  replace (run [take o m; shorten o m] d) with (run [o] d); [reflexivity|].
  rewrite <- run_merge by (destruct o; reflexivity).
  f_equal. f_equal. destruct o as [n|s|n]; simpl in *.
  - f_equal; lia.
  - now rewrite firstn_skipn.
  - f_equal; lia.
Qed.

Lemma shorten_len o m : len (shorten o m) = len o - m.
Proof. destruct o; simpl; try reflexivity. apply length_skipn. Qed.

Lemma run_shorten_fst a0 b0 ops d :
  run (unread (fst (_shorten_ops a0 b0)) ops) d =
  run (shorten a0 (min (len a0) (len b0)) :: ops) d.
Proof.
  unfold _shorten_ops.
  destruct (Nat.eqb_spec (len a0) (len b0)) as [E|E]; cbn [fst snd unread].
  - rewrite run_zero_cons; [reflexivity | rewrite shorten_len; lia].
  - destruct (Nat.ltb_spec (len b0) (len a0)); cbn [fst snd unread].
    + now rewrite Nat.min_r by lia.
    + rewrite run_zero_cons; [reflexivity | rewrite shorten_len; lia].
Qed.

Lemma run_shorten_snd a0 b0 ops d :
  run (unread (snd (_shorten_ops a0 b0)) ops) d =
  run (shorten b0 (min (len a0) (len b0)) :: ops) d.
Proof.
  unfold _shorten_ops.
  destruct (Nat.eqb_spec (len a0) (len b0)) as [E|E]; cbn [fst snd unread].
  - rewrite run_zero_cons; [reflexivity | rewrite shorten_len; lia].
  - destruct (Nat.ltb_spec (len b0) (len a0)); cbn [fst snd unread].
    + rewrite run_zero_cons; [reflexivity | rewrite shorten_len; lia].
    + now rewrite Nat.min_l by lia.
Qed.

(** After an aligned turn both sides have given up [min_len] characters. *)
Lemma run_aligned_fst a0 b0 ops d :
  run (a0 :: ops) d =
  run (take a0 (min (len a0) (len b0)) :: unread (fst (_shorten_ops a0 b0)) ops) d.
Proof.
  rewrite (run_split a0 (min (len a0) (len b0))) by lia.
  rewrite run_cons, (run_cons (take _ _) (unread _ _)).
  destruct (run [take a0 _] d) as [[o r]|e]; [|reflexivity].
  now rewrite run_shorten_fst.
Qed.

Lemma run_aligned_snd a0 b0 ops d :
  run (b0 :: ops) d =
  run (take b0 (min (len a0) (len b0)) :: unread (snd (_shorten_ops a0 b0)) ops) d.
Proof.
  rewrite (run_split b0 (min (len a0) (len b0))) by lia.
  rewrite run_cons, (run_cons (take _ _) (unread _ _)).
  destruct (run [take b0 _] d) as [[o r]|e]; [|reflexivity].
  now rewrite run_shorten_snd.
Qed.

Lemma shorten_ops_nonzero a0 b0 ia ib :
  Forall nonzero ia -> Forall nonzero ib ->
  Forall nonzero (unread (fst (_shorten_ops a0 b0)) ia) /\
  Forall nonzero (unread (snd (_shorten_ops a0 b0)) ib).
Proof.
  intros Ha Hb. unfold _shorten_ops.
  destruct (Nat.eqb_spec (len a0) (len b0)); simpl; [auto|].
  destruct (Nat.ltb_spec (len b0) (len a0)); simpl; split; auto;
    constructor; auto; unfold nonzero; rewrite shorten_len; lia.
Qed.

(** Inversion of a successful [run], by the class of the first element. *)
Lemma run_retain_inv n ops d o rest :
  run (Retain n :: ops) d = Ok (o, rest) ->
  n <= length d /\
  exists o', o = firstn n d ++ o' /\ run ops (skipn n d) = Ok (o', rest).
Proof.
  simpl. destruct (Nat.ltb_spec (length d) n); [discriminate|].
  destruct (run ops (skipn n d)) as [[o' r']|e]; [|discriminate].
  intros [= <- <-]. eauto.
Qed.

Lemma run_insert_inv s ops d o rest :
  run (Insert s :: ops) d = Ok (o, rest) ->
  exists o', o = s ++ o' /\ run ops d = Ok (o', rest).
Proof.
  simpl. destruct (run ops d) as [[o' r']|e]; [|discriminate].
  intros [= <- <-]. eauto.
Qed.

Lemma run_delete_inv n ops d o rest :
  run (Delete n :: ops) d = Ok (o, rest) ->
  n <= length d /\ run ops (skipn n d) = Ok (o, rest).
Proof.
  simpl. destruct (Nat.ltb_spec (length d) n); [discriminate|]. auto.
Qed.

Lemma run_nil_inv d o : run [] d = Ok (o, []) -> d = [] /\ o = [].
Proof. simpl. intros [= <- <-]. auto. Qed.

(** What the accumulator of a loop does after one more [append]. *)
Lemma run_append_ok acc o d0 o0 d o1 d' :
  run acc d0 = Ok (o0, d) -> run [o] d = Ok (o1, d') ->
  run (append acc o) d0 = Ok (o0 ++ o1, d').
Proof.
  intros H1 H2. rewrite run_append, run_app, H1, H2. reflexivity.
Qed.

Lemma append_nonzero acc o : Forall nonzero acc -> Forall nonzero (append acc o).
Proof.
  intros H. append_cases acc o; subst; auto.
  - apply Forall_app in H. destruct H as [H1 H2]. apply Forall_app. split; auto.
    constructor; auto. unfold nonzero. rewrite merge_len by assumption.
    apply Nat.eqb_neq in E. lia.
  - apply Forall_app. split; auto. constructor; auto. now apply Nat.eqb_neq.
  - constructor; auto. now apply Nat.eqb_neq.
Qed.

Lemma run_retain_one n d :
  n <= length d -> run [Retain n] d = Ok (firstn n d, skipn n d).
Proof.
  intros H. simpl. destruct (Nat.ltb_spec (length d) n); [lia|].
  simpl. now rewrite app_nil_r.
Qed.

Lemma run_delete_one n d :
  n <= length d -> run [Delete n] d = Ok ([], skipn n d).
Proof. intros H. simpl. destruct (Nat.ltb_spec (length d) n); [lia|reflexivity]. Qed.

Lemma run_insert_one s d : run [Insert s] d = Ok (s, d).
Proof. simpl. now rewrite app_nil_r. Qed.

Lemma emit_ok_inv p res o rest :
  emit p res = Ok (o, rest) -> exists o', o = p ++ o' /\ res = Ok (o', rest).
Proof. destruct res as [[o' r']|e]; simpl; [|discriminate]. intros [= <- <-]. eauto. Qed.

(** ** Composition *)

Section ComposeStep.

Variables (c : cursors) (operation : TextOperation.t).
Variables (d mid r : list ascii).

(** [d] is what the first operation has still to read, [mid] what it will
    write from it, and [r] what the second operation makes of [mid]. *)
Hypothesis HA : run (unread (a c) (iter_a c)) d = Ok (mid, []).
Hypothesis HB : run (unread (b c) (iter_b c)) mid = Ok (r, []).

Lemma compose_step_continue c' operation' :
  compose_step c operation = Continue (c', operation') ->
  exists d' mid' r' p,
    run (unread (a c') (iter_a c')) d' = Ok (mid', []) /\
    run (unread (b c') (iter_b c')) mid' = Ok (r', []) /\
    (Forall nonzero (unread (a c) (iter_a c)) ->
     Forall nonzero (unread (b c) (iter_b c)) ->
     Forall nonzero (unread (a c') (iter_a c')) /\
     Forall nonzero (unread (b c') (iter_b c'))) /\
    r = p ++ r' /\
    forall d0 o0, run operation d0 = Ok (o0, d) ->
                  run operation' d0 = Ok (o0 ++ p, d').
Proof.
  unfold compose_step. pose proof HA as A. pose proof HB as B.
  rewrite <- fetch_unread in A, B.
  rewrite <- (fetch_unread (a c)), <- (fetch_unread (b c)).
  destruct (fetch (a c) (iter_a c)) as [x ia], (fetch (b c) (iter_b c)) as [y ib].
  cbn [fst snd] in *.
  destruct x as [[n|s|n]|], y as [[m|u|m]|]; cbn [unread] in *; intros St;
    try discriminate St.
  (* the aligned turns *)
  1,3,4,6:
    match type of St with context [_shorten_ops ?a0 ?b0] =>
      rewrite (run_aligned_fst a0 b0) in A; rewrite (run_aligned_snd a0 b0) in B;
      pose proof (fun Ha Hb => shorten_ops_nonzero a0 b0 ia ib Ha Hb) as NZ;
      pose proof (Nat.le_min_l (len a0) (len b0)) as La;
      pose proof (Nat.le_min_r (len a0) (len b0)) as Lb;
      destruct (_shorten_ops a0 b0) as [a' b']
    end;
    injection St as <- <-; cbn [a iter_a b iter_b fst snd take len] in *.
  1: { (* Retain, Retain *)
    apply run_retain_inv in A as (L & mid' & -> & A).
    rewrite run_retain_front in B by (now apply firstn_length_le).
    apply emit_ok_inv in B as (r' & -> & B).
    exists (skipn (min n m) d), mid', r', (firstn (min n m) d).
    repeat split; auto.
    + apply NZ; [now inversion H | now inversion H0].
    + apply NZ; [now inversion H | now inversion H0].
    + intros d0 o0 H. eapply run_append_ok; [exact H | now apply run_retain_one]. }
  1: { (* Retain, Delete *)
    apply run_retain_inv in A as (L & mid' & -> & A).
    rewrite run_delete_front in B by (now apply firstn_length_le).
    exists (skipn (min n m) d), mid', r, [].
    repeat split; auto.
    + apply NZ; [now inversion H | now inversion H0].
    + apply NZ; [now inversion H | now inversion H0].
    + intros d0 o0 H. eapply run_append_ok; [exact H | now apply run_delete_one]. }
  1: { (* Insert, Retain *)
    apply run_insert_inv in A as (mid' & -> & A).
    rewrite run_retain_front in B by (apply firstn_length_le; lia).
    apply emit_ok_inv in B as (r' & -> & B).
    exists d, mid', r', (firstn (min (length s) m) s).
    repeat split; auto.
    + apply NZ; [now inversion H | now inversion H0].
    + apply NZ; [now inversion H | now inversion H0].
    + intros d0 o0 H. eapply run_append_ok; [exact H | apply run_insert_one]. }
  1: { (* Insert, Delete: the two cancel *)
    apply run_insert_inv in A as (mid' & -> & A).
    rewrite run_delete_front in B by (apply firstn_length_le; lia).
    exists d, mid', r, [].
    repeat split; auto.
    + apply NZ; [now inversion H | now inversion H0].
    + apply NZ; [now inversion H | now inversion H0].
    + intros d0 o0 H. now rewrite app_nil_r. }
  (* the first operation deletes, or else the second inserts *)
  all: injection St as <- <-; cbn [a iter_a b iter_b unread].
  all: match goal with
       | |- context [append operation (Delete ?k)] =>
           apply run_delete_inv in A as [L A];
           exists (skipn k d), mid, r, []; repeat split; auto;
           try (now inversion H); try (now rewrite app_nil_r);
           intros d0 o0 Hr; eapply run_append_ok;
           [exact Hr | now apply run_delete_one]
       | |- context [append operation (Insert ?u)] =>
           apply run_insert_inv in B as (r' & -> & B);
           exists d, mid, r', u; repeat split; auto;
           try (now inversion H0);
           intros d0 o0 Hr; eapply run_append_ok;
           [exact Hr | apply run_insert_one]
       end.
Qed.

Lemma compose_step_break res :
  compose_step c operation = Break res -> res = operation /\ d = [] /\ r = [].
Proof.
  unfold compose_step. pose proof HA as A. pose proof HB as B.
  rewrite <- fetch_unread in A, B.
  destruct (fetch (a c) (iter_a c)) as [x ia] eqn:Fa,
    (fetch (b c) (iter_b c)) as [y ib] eqn:Fb.
  cbn [fst snd] in *.
  destruct x as [[n|s|n]|], y as [[m|u|m]|]; cbn [unread] in *; intros St;
    try discriminate St;
    try (destruct (_shorten_ops _ _); discriminate St).
  injection St as <-.
  apply fetch_none in Fa as (_ & _ & ->). apply fetch_none in Fb as (_ & _ & ->).
  apply run_nil_inv in A as [-> ->]. apply run_nil_inv in B as [_ ->]. auto.
Qed.

Lemma compose_step_raised e :
  compose_step c operation = Raised e ->
  Forall nonzero (unread (a c) (iter_a c)) ->
  Forall nonzero (unread (b c) (iter_b c)) -> False.
Proof.
  unfold compose_step. pose proof HA as A. pose proof HB as B.
  rewrite <- fetch_unread in A, B.
  rewrite <- (fetch_unread (a c)), <- (fetch_unread (b c)).
  destruct (fetch (a c) (iter_a c)) as [x ia] eqn:Fa,
    (fetch (b c) (iter_b c)) as [y ib] eqn:Fb.
  cbn [fst snd] in *.
  destruct x as [[n|s|n]|], y as [[m|u|m]|]; cbn [unread] in *; intros St Na Nb;
    try discriminate St;
    try (destruct (_shorten_ops _ _); discriminate St).
  - (* Retain left over *)
    apply fetch_none in Fb as (_ & _ & ->).
    apply run_nil_inv in B as [-> _].
    apply run_retain_inv in A as (L & mid' & E & _).
    inversion Na as [|? ? Z _]; subst. apply Z. simpl.
    apply (f_equal (@length ascii)) in E. rewrite length_app in E.
    rewrite firstn_length_le in E by assumption. simpl in E. lia.
  - (* Insert left over *)
    apply fetch_none in Fb as (_ & _ & ->).
    apply run_nil_inv in B as [-> _].
    apply run_insert_inv in A as (mid' & E & _).
    inversion Na as [|? ? Z _]; subst. apply Z. simpl.
    apply (f_equal (@length ascii)) in E. rewrite length_app in E.
    simpl in E. lia.
  - (* the second operation retains text that is not there *)
    apply fetch_none in Fa as (_ & _ & ->).
    apply run_nil_inv in A as [_ ->].
    apply run_retain_inv in B as (L & _).
    inversion Nb as [|? ? Z _]; subst. apply Z. simpl in *. lia.
  - apply fetch_none in Fa as (_ & _ & ->).
    apply run_nil_inv in A as [_ ->].
    apply run_delete_inv in B as (L & _).
    inversion Nb as [|? ? Z _]; subst. apply Z. simpl in *. lia.
Qed.

End ComposeStep.

(** The loop of [compose], from any state in which the second operation
    fits what the first is still to write: when no pending element is empty
    it returns, and whatever it returns finishes the accumulated operation
    so that it writes [r]. *)
Lemma compose_loop_spec k :
  forall c operation d mid r,
    remaining c < k ->
    run (unread (a c) (iter_a c)) d = Ok (mid, []) ->
    run (unread (b c) (iter_b c)) mid = Ok (r, []) ->
    (Forall nonzero (unread (a c) (iter_a c)) ->
     Forall nonzero (unread (b c) (iter_b c)) ->
     exists res, compose_loop c operation = Ok res) /\
    (forall res, compose_loop c operation = Ok res ->
       forall d0 o0, run operation d0 = Ok (o0, d) ->
                     run res d0 = Ok (o0 ++ r, [])).
Proof.
  induction k as [|k IH]; intros c operation d mid r Hk HA HB; [lia|].
  rewrite compose_loop_unfold.
  pose proof (compose_step_decreases c operation) as Dec.
  destruct (compose_step c operation) as [[c' operation']|res0|e] eqn:St.
  - destruct (compose_step_continue c operation d mid r HA HB c' operation' St)
      as (d' & mid' & r' & p & HA' & HB' & NZ & -> & Acc).
    specialize (Dec c' operation' eq_refl).
    destruct (IH c' operation' d' mid' r' ltac:(lia) HA' HB') as [T P].
    split.
    + intros Na Nb. destruct (NZ Na Nb). auto.
    + intros res E d0 o0 H. rewrite app_assoc. eapply P; eauto.
  - destruct (compose_step_break c operation d mid r HA HB res0 St) as (-> & -> & ->).
    split; [eauto|]. intros res [= <-] d0 o0 H. now rewrite app_nil_r.
  - split; [|discriminate]. intros Na Nb. exfalso.
    exact (compose_step_raised c operation d mid r HA HB e St Na Nb).
Qed.

(** [compose] on two operations that follow each other. *)
Lemma compose_spec S1 S2 D D1 D2 :
  run S1 D = Ok (D1, []) -> run S2 D1 = Ok (D2, []) ->
  (Forall nonzero S1 -> Forall nonzero S2 -> exists S12, compose S1 S2 = Ok S12) /\
  (forall S12, compose S1 S2 = Ok S12 -> call S12 D = Ok D2).
Proof.
  intros H1 H2. unfold compose.
  destruct (compose_loop_spec (S (length S1 + length S2))
              (Cursors None S1 None S2) [] D D1 D2) as [T P];
    [unfold remaining; simpl; lia | exact H1 | exact H2 |].
  split; [exact T|]. intros S12 E. apply call_ok_iff.
  exact (P S12 E D [] eq_refl).
Qed.

(** C3 as stated fails on a sequence that holds an empty operation: both
    operations are valid and apply one after the other, yet [compose]
    raises. *)
Lemma compose_raises_on_empty_retain :
  valid [Retain 3; Retain 0] (text "abc") /\
  call [Retain 3; Retain 0] (text "abc") = Ok (text "abc") /\
  valid [Retain 3] (text "abc") /\
  call [Retain 3] (text "abc") = Ok (text "abc") /\
  compose [Retain 3; Retain 0] [Retain 3] =
  Raise (IncompatibleOperationError first_too_long).
Proof. repeat split. Qed.

(** C3, amended: for [S1] valid against [D] and [S2] valid against [S1(D)],
    whenever [compose(S1, S2)] returns a sequence, applying it to [D] gives
    [S2(S1(D))]; and it does return one when neither sequence holds an
    operation of length zero. *)
Theorem compose_equivalence (D : list ascii) (S1 S2 : TextOperation.t)
    (D1 : list ascii) :
  valid S1 D -> call S1 D = Ok D1 -> valid S2 D1 ->
  exists D2,
    call S2 D1 = Ok D2 /\
    (forall S12, compose S1 S2 = Ok S12 -> call S12 D = Ok D2) /\
    (Forall nonzero S1 -> Forall nonzero S2 ->
     exists S12, compose S1 S2 = Ok S12 /\ call S12 D = Ok D2).
Proof.
  intros _ H1 V2. apply call_ok_iff in H1.
  destruct (run_valid S2 D1 V2) as [D2 H2]. exists D2.
  destruct (compose_spec S1 S2 D D1 D2 H1 H2) as [T P].
  split; [now apply call_ok_iff|]. split; [exact P|].
  intros N1 N2. destruct (T N1 N2) as [S12 E]. eauto.
Qed.

Lemma compose_equivalence_witness :
  valid [Retain 2; Delete 3] (text "hello") /\
  call [Retain 2; Delete 3] (text "hello") = Ok (text "he") /\
  valid [Retain 2; Insert (text "!")] (text "he") /\
  exists D2,
    call [Retain 2; Insert (text "!")] (text "he") = Ok D2 /\
    (forall S12, compose [Retain 2; Delete 3] [Retain 2; Insert (text "!")] = Ok S12 ->
                 call S12 (text "hello") = Ok D2) /\
    (Forall nonzero [Retain 2; Delete 3] ->
     Forall nonzero [Retain 2; Insert (text "!")] ->
     exists S12, compose [Retain 2; Delete 3] [Retain 2; Insert (text "!")] = Ok S12 /\
                 call S12 (text "hello") = Ok D2).
Proof.
  split; [reflexivity|]. split; [reflexivity|]. split; [reflexivity|].
  apply (compose_equivalence (text "hello") [Retain 2; Delete 3]
           [Retain 2; Insert (text "!")] (text "he")); reflexivity.
Defined.

(** ** How [compose] ends *)





Lemma compose_step_break_iff c operation res :
  compose_step c operation = Break res <->
  res = operation /\ exhausted (a c) (iter_a c) /\ exhausted (b c) (iter_b c).
Proof.
  unfold compose_step, exhausted.
  destruct (fetch (a c) (iter_a c)) as [x ia], (fetch (b c) (iter_b c)) as [y ib].
  cbn [fst snd].
  destruct x as [[n|s|n]|], y as [[m|u|m]|];
    try destruct (_shorten_ops _ _) as [a' b'];
    (split;
     [ intros St; try discriminate St; injection St as <-; auto
     | intros (-> & E1 & E2); try discriminate E1; try discriminate E2;
       reflexivity ]).
Qed.







(** ** Transformation *)

Lemma run_retain_one_front n p y :
  length p = n -> run [Retain n] (p ++ y) = Ok (p, y).
Proof.
  intros H. rewrite run_retain_front by assumption. simpl. now rewrite app_nil_r.
Qed.

Lemma run_delete_one_front n p y :
  length p = n -> run [Delete n] (p ++ y) = Ok ([], y).
Proof. intros H. now rewrite run_delete_front by assumption. Qed.

Section TransformStep.

Variables (c : cursors) (a_prime b_prime : TextOperation.t).
Variables (d ma mb : list ascii).

(** [d] is what both operations have still to read, [ma] and [mb] what
    each of them will write from it. *)
Hypothesis HA : run (unread (a c) (iter_a c)) d = Ok (ma, []).
Hypothesis HB : run (unread (b c) (iter_b c)) d = Ok (mb, []).

Lemma transform_step_continue c' a_prime' b_prime' :
  transform_step c (a_prime, b_prime) = Continue (c', (a_prime', b_prime')) ->
  exists d' ma' mb' p,
    run (unread (a c') (iter_a c')) d' = Ok (ma', []) /\
    run (unread (b c') (iter_b c')) d' = Ok (mb', []) /\
    (Forall nonzero (unread (a c) (iter_a c)) ->
     Forall nonzero (unread (b c) (iter_b c)) ->
     Forall nonzero (unread (a c') (iter_a c')) /\
     Forall nonzero (unread (b c') (iter_b c'))) /\
    (forall d0 o0, run a_prime d0 = Ok (o0, mb) ->
                   run a_prime' d0 = Ok (o0 ++ p, mb')) /\
    (forall d0 o0, run b_prime d0 = Ok (o0, ma) ->
                   run b_prime' d0 = Ok (o0 ++ p, ma')).
Proof.
  unfold transform_step. pose proof HA as A. pose proof HB as B.
  rewrite <- fetch_unread in A, B.
  rewrite <- (fetch_unread (a c)), <- (fetch_unread (b c)).
  destruct (fetch (a c) (iter_a c)) as [x ia], (fetch (b c) (iter_b c)) as [y ib].
  cbn [fst snd] in *.
  destruct x as [[n|s|n]|], y as [[m|u|m]|]; cbn [unread] in *; intros St;
    try discriminate St.
  (* the aligned turns *)
  1,3,8,10:
    match type of St with context [_shorten_ops ?a0 ?b0] =>
      rewrite (run_aligned_fst a0 b0) in A; rewrite (run_aligned_snd a0 b0) in B;
      pose proof (fun Ha Hb => shorten_ops_nonzero a0 b0 ia ib Ha Hb) as NZ;
      pose proof (Nat.le_min_l (len a0) (len b0)) as La;
      pose proof (Nat.le_min_r (len a0) (len b0)) as Lb;
      destruct (_shorten_ops a0 b0) as [a' b']
    end;
    injection St as <- <- <-; cbn [a iter_a b iter_b fst snd take len] in *.
  1: { (* Retain, Retain *)
    apply run_retain_inv in A as (L & ma' & -> & A).
    apply run_retain_inv in B as (_ & mb' & -> & B).
    exists (skipn (min n m) d), ma', mb', (firstn (min n m) d).
    repeat split; auto;
      try (apply NZ; [now inversion H | now inversion H0]);
      intros d0 o0 Hr; eapply run_append_ok; try exact Hr;
      apply run_retain_one_front; now apply firstn_length_le. }
  1: { (* Retain, Delete *)
    apply run_retain_inv in A as (L & ma' & -> & A).
    apply run_delete_inv in B as (_ & B).
    exists (skipn (min n m) d), ma', mb, [].
    repeat split; auto;
      try (apply NZ; [now inversion H | now inversion H0]).
    - intros d0 o0 Hr. now rewrite app_nil_r.
    - intros d0 o0 Hr; eapply run_append_ok; try exact Hr.
      apply run_delete_one_front; now apply firstn_length_le. }
  1: { (* Delete, Retain *)
    apply run_delete_inv in A as (L & A).
    apply run_retain_inv in B as (_ & mb' & -> & B).
    exists (skipn (min n m) d), ma, mb', [].
    repeat split; auto;
      try (apply NZ; [now inversion H | now inversion H0]).
    - intros d0 o0 Hr; eapply run_append_ok; try exact Hr.
      apply run_delete_one_front; now apply firstn_length_le.
    - intros d0 o0 Hr. now rewrite app_nil_r. }
  1: { (* Delete, Delete: both delete the same text *)
    apply run_delete_inv in A as (L & A).
    apply run_delete_inv in B as (_ & B).
    exists (skipn (min n m) d), ma, mb, [].
    repeat split; auto;
      try (apply NZ; [now inversion H | now inversion H0]);
      intros d0 o0 Hr; now rewrite app_nil_r. }
  (* one of the two inserts *)
  all: injection St as <- <- <-; cbn [a iter_a b iter_b unread].
  all: match goal with
       | |- context [append a_prime (Insert ?s)] =>
           apply run_insert_inv in A as (ma' & -> & A);
           exists d, ma', mb, s; repeat split; auto;
           try (now inversion H);
           intros d0 o0 Hr; eapply run_append_ok; try exact Hr;
           [apply run_insert_one | now apply run_retain_one_front]
       | |- context [append b_prime (Insert ?u)] =>
           apply run_insert_inv in B as (mb' & -> & B);
           exists d, ma, mb', u; repeat split; auto;
           try (now inversion H0);
           intros d0 o0 Hr; eapply run_append_ok; try exact Hr;
           [now apply run_retain_one_front | apply run_insert_one]
       end.
Qed.

Lemma transform_step_break res :
  transform_step c (a_prime, b_prime) = Break res ->
  res = (a_prime, b_prime) /\ ma = [] /\ mb = [].
Proof.
  unfold transform_step. pose proof HA as A. pose proof HB as B.
  rewrite <- fetch_unread in A, B.
  destruct (fetch (a c) (iter_a c)) as [x ia] eqn:Fa,
    (fetch (b c) (iter_b c)) as [y ib] eqn:Fb.
  cbn [fst snd] in *.
  destruct x as [[n|s|n]|], y as [[m|u|m]|]; cbn [unread] in *; intros St;
    try discriminate St;
    try (destruct (_shorten_ops _ _); discriminate St).
  injection St as <-.
  apply fetch_none in Fa as (_ & _ & ->). apply fetch_none in Fb as (_ & _ & ->).
  apply run_nil_inv in A as [_ ->]. apply run_nil_inv in B as [_ ->]. auto.
Qed.

Lemma transform_step_raised e :
  transform_step c (a_prime, b_prime) = Raised e ->
  Forall nonzero (unread (a c) (iter_a c)) ->
  Forall nonzero (unread (b c) (iter_b c)) -> False.
Proof.
  unfold transform_step. pose proof HA as A. pose proof HB as B.
  rewrite <- fetch_unread in A, B.
  rewrite <- (fetch_unread (a c)), <- (fetch_unread (b c)).
  destruct (fetch (a c) (iter_a c)) as [x ia] eqn:Fa,
    (fetch (b c) (iter_b c)) as [y ib] eqn:Fb.
  cbn [fst snd] in *.
  destruct x as [[n|s|n]|], y as [[m|u|m]|]; cbn [unread] in *; intros St Na Nb;
    try discriminate St;
    try (destruct (_shorten_ops _ _); discriminate St).
  (* one side has ended: the document has, and the other side reads on *)
  1,2: apply fetch_none in Fb as (_ & _ & ->); apply run_nil_inv in B as [-> _];
       inversion Na as [|? ? Z _]; subst; apply Z.
  3,4: apply fetch_none in Fa as (_ & _ & ->); apply run_nil_inv in A as [-> _];
       inversion Nb as [|? ? Z _]; subst; apply Z.
  - apply run_retain_inv in A as (L & _). simpl in *. lia.
  - apply run_delete_inv in A as (L & _). simpl in *. lia.
  - apply run_retain_inv in B as (L & _). simpl in *. lia.
  - apply run_delete_inv in B as (L & _). simpl in *. lia.
Qed.

End TransformStep.

(** The loop of [transform], from any state in which both operations have
    the same text [d] still to read: when no pending element is empty it
    returns, and whatever it returns finishes the two accumulated operations
    so that they write one and the same text [r]. *)
Lemma transform_loop_spec k :
  forall c a_prime b_prime d ma mb,
    remaining c < k ->
    run (unread (a c) (iter_a c)) d = Ok (ma, []) ->
    run (unread (b c) (iter_b c)) d = Ok (mb, []) ->
    (Forall nonzero (unread (a c) (iter_a c)) ->
     Forall nonzero (unread (b c) (iter_b c)) ->
     exists res, transform_loop c (a_prime, b_prime) = Ok res) /\
    (forall ra rb, transform_loop c (a_prime, b_prime) = Ok (ra, rb) ->
       exists r,
         (forall d0 o0, run a_prime d0 = Ok (o0, mb) ->
                        run ra d0 = Ok (o0 ++ r, [])) /\
         (forall d0 o0, run b_prime d0 = Ok (o0, ma) ->
                        run rb d0 = Ok (o0 ++ r, []))).
Proof.
  induction k as [|k IH]; intros c a_prime b_prime d ma mb Hk HA HB; [lia|].
  rewrite transform_loop_unfold.
  pose proof (transform_step_decreases c (a_prime, b_prime)) as Dec.
  destruct (transform_step c (a_prime, b_prime)) as [[c' [ap' bp']]|res0|e] eqn:St.
  - destruct (transform_step_continue c a_prime b_prime d ma mb HA HB c' ap' bp' St)
      as (d' & ma' & mb' & p & HA' & HB' & NZ & AccA & AccB).
    specialize (Dec c' (ap', bp') eq_refl).
    destruct (IH c' ap' bp' d' ma' mb' ltac:(lia) HA' HB') as [T P].
    split.
    + intros Na Nb. destruct (NZ Na Nb). auto.
    + intros ra rb E. destruct (P ra rb E) as (r' & Pa & Pb).
      exists (p ++ r'). split; intros d0 o0 H; rewrite app_assoc; auto.
  - destruct (transform_step_break c a_prime b_prime d ma mb HA HB res0 St)
      as (-> & -> & ->).
    split; [eauto|]. intros ra rb [= <- <-]. exists [].
    split; intros d0 o0 H; now rewrite app_nil_r.
  - split; [|discriminate]. intros Na Nb. exfalso.
    exact (transform_step_raised c a_prime b_prime d ma mb HA HB e St Na Nb).
Qed.

(** The two operations [transform] builds hold no empty operation. *)
Lemma transform_step_nonzero c a_prime b_prime c' a_prime' b_prime' :
  transform_step c (a_prime, b_prime) = Continue (c', (a_prime', b_prime')) ->
  Forall nonzero a_prime -> Forall nonzero b_prime ->
  Forall nonzero a_prime' /\ Forall nonzero b_prime'.
Proof.
  unfold transform_step.
  destruct (fetch (a c) (iter_a c)) as [x ia], (fetch (b c) (iter_b c)) as [y ib].
  destruct x as [[n|s|n]|], y as [[m|u|m]|];
    try destruct (_shorten_ops _ _) as [a' b'];
    intros St Na Nb; try discriminate St;
    injection St as <- <- <-; auto using append_nonzero.
Qed.

Lemma transform_loop_nonzero k :
  forall c a_prime b_prime ra rb,
    remaining c < k ->
    Forall nonzero a_prime -> Forall nonzero b_prime ->
    transform_loop c (a_prime, b_prime) = Ok (ra, rb) ->
    Forall nonzero ra /\ Forall nonzero rb.
Proof.
  induction k as [|k IH]; intros c a_prime b_prime ra rb Hk Na Nb; [lia|].
  rewrite transform_loop_unfold.
  pose proof (transform_step_decreases c (a_prime, b_prime)) as Dec.
  destruct (transform_step c (a_prime, b_prime)) as [[c' [ap' bp']]|res0|e] eqn:St.
  - specialize (Dec c' (ap', bp') eq_refl).
    destruct (transform_step_nonzero _ _ _ _ _ _ St Na Nb) as [Na' Nb'].
    apply IH; auto. lia.
  - intros [= ->]. revert St. unfold transform_step.
    destruct (fetch (a c) (iter_a c)) as [x ia], (fetch (b c) (iter_b c)) as [y ib].
    destruct x as [[n|s|n]|], y as [[m|u|m]|];
      try destruct (_shorten_ops _ _) as [a' b'];
      intros St; try discriminate St. injection St as <- <-. auto.
  - discriminate.
Qed.

(** [transform] on two operations that start from one document. *)
Lemma transform_spec S1 S2 D DA DB :
  run S1 D = Ok (DA, []) -> run S2 D = Ok (DB, []) ->
  (Forall nonzero S1 -> Forall nonzero S2 ->
   exists res, transform S1 S2 = Ok res) /\
  (forall S1' S2', transform S1 S2 = Ok (S1', S2') ->
     Forall nonzero S1' /\ Forall nonzero S2' /\
     exists R, run S1' DB = Ok (R, []) /\ run S2' DA = Ok (R, [])).
Proof.
  intros HA HB. unfold transform.
  destruct (transform_loop_spec (S (length S1 + length S2))
              (Cursors None S1 None S2) [] [] D DA DB) as [T P];
    [unfold remaining; simpl; lia | exact HA | exact HB |].
  split; [exact T|]. intros S1' S2' E.
  assert (Hk : remaining (Cursors None S1 None S2) < S (length S1 + length S2))
    by (unfold remaining; simpl; lia).
  destruct (transform_loop_nonzero _ _ _ _ _ _ Hk (Forall_nil _) (Forall_nil _) E)
    as [N1 N2].
  destruct (P S1' S2' E) as (R & Pa & Pb).
  split; [exact N1|]. split; [exact N2|]. exists R.
  split; [exact (Pa DB [] eq_refl) | exact (Pb DA [] eq_refl)].
Qed.

(** C1 as stated fails on a sequence that holds an empty operation: both
    operations are valid against the document, and [transform] raises. *)
Lemma transform_raises_on_empty_retain :
  valid [Retain 1; Retain 0] (text "a") /\
  valid [Retain 1] (text "a") /\
  transform [Retain 1; Retain 0] [Retain 1] = Raise (TypeError none_has_no_len).
Proof. repeat split. Qed.

(** C1, amended: for [S1] and [S2] valid against [D] and holding no
    operation of length zero, [transform(S1, S2)] returns a pair
    [(S1', S2')], both [compose(S1, S2')] and [compose(S2, S1')] return, and
    the two composed operations applied to [D] give the same document.  For
    any valid [S1] and [S2], the same holds whenever the three calls
    return. *)
Theorem transform_convergence (D : list ascii) (S1 S2 : TextOperation.t) :
  valid S1 D -> valid S2 D ->
  (Forall nonzero S1 -> Forall nonzero S2 ->
   exists S1' S2' X Y R,
     transform S1 S2 = Ok (S1', S2') /\
     compose S1 S2' = Ok X /\ compose S2 S1' = Ok Y /\
     call X D = Ok R /\ call Y D = Ok R) /\
  (forall S1' S2' X Y,
     transform S1 S2 = Ok (S1', S2') ->
     compose S1 S2' = Ok X -> compose S2 S1' = Ok Y ->
     exists R, call X D = Ok R /\ call Y D = Ok R).
Proof.
  intros V1 V2.
  destruct (run_valid S1 D V1) as [DA HA], (run_valid S2 D V2) as [DB HB].
  destruct (transform_spec S1 S2 D DA DB HA HB) as [T P].
  split.
  - intros N1 N2. destruct (T N1 N2) as [[S1' S2'] E].
    destruct (P S1' S2' E) as (N1' & N2' & R & R1 & R2).
    destruct (compose_spec S1 S2' D DA R HA R2) as [TX PX].
    destruct (compose_spec S2 S1' D DB R HB R1) as [TY PY].
    destruct (TX N1 N2') as [X EX], (TY N2 N1') as [Y EY].
    exists S1', S2', X, Y, R. auto 6.
  - intros S1' S2' X Y E EX EY.
    destruct (P S1' S2' E) as (_ & _ & R & R1 & R2).
    destruct (compose_spec S1 S2' D DA R HA R2) as [_ PX].
    destruct (compose_spec S2 S1' D DB R HB R1) as [_ PY].
    exists R. auto.
Qed.

Lemma transform_convergence_witness :
  valid [Insert (text "X"); Retain 2; Delete 3] (text "hello") /\
  valid [Delete 1; Retain 4; Insert (text "Y")] (text "hello") /\
  exists S1' S2' X Y R,
    transform [Insert (text "X"); Retain 2; Delete 3]
              [Delete 1; Retain 4; Insert (text "Y")] = Ok (S1', S2') /\
    compose [Insert (text "X"); Retain 2; Delete 3] S2' = Ok X /\
    compose [Delete 1; Retain 4; Insert (text "Y")] S1' = Ok Y /\
    call X (text "hello") = Ok R /\ call Y (text "hello") = Ok R.
Proof.
  split; [reflexivity|]. split; [reflexivity|].
  apply (transform_convergence (text "hello")
           [Insert (text "X"); Retain 2; Delete 3]
           [Delete 1; Retain 4; Insert (text "Y")] eq_refl eq_refl);
    repeat constructor; discriminate.
Defined.

(** ** The tie-break of [transform] *)

(** While the second operation has an Insert pending, the first one still
    gets all its leading Inserts through before it. *)
Lemma transform_loop_insert_pending A :
  forall B t a_prime b_prime d ma mb ra rb,
    run A d = Ok (ma, []) ->
    run B d = Ok (mb, []) ->
    transform_loop (Cursors None A (Some (Insert t)) B) (a_prime, b_prime) =
      Ok (ra, rb) ->
    exists rest,
      forall d0 o0, run b_prime d0 = Ok (o0, ma) ->
                    run rb d0 = Ok (o0 ++ leading_inserts A ++ t ++ rest, []).
Proof.
  induction A as [|x A IH]; intros B t a_prime b_prime d ma mb ra rb HA HB;
    rewrite transform_loop_unfold; unfold transform_step;
    cbn [fetch next a iter_a b iter_b].
  - intros E.
    destruct (transform_loop_spec (S (length B)) (Cursors None [] None B)
                (append a_prime (Retain (length t))) (append b_prime (Insert t))
                d ma mb) as [_ P];
      [unfold remaining; simpl; lia | exact HA | exact HB |].
    destruct (P ra rb E) as (r & _ & Pb). exists r. intros d0 o0 H.
    cbn [leading_inserts app]. rewrite app_assoc. apply Pb.
    eapply run_append_ok; [exact H | apply run_insert_one].
  - destruct x as [n|u|n].
    + intros E.
      destruct (transform_loop_spec (S (S (length A + length B)))
                  (Cursors (Some (Retain n)) A None B)
                  (append a_prime (Retain (length t))) (append b_prime (Insert t))
                  d ma mb) as [_ P];
        [unfold remaining; simpl; lia | exact HA | exact HB |].
      destruct (P ra rb E) as (r & _ & Pb). exists r. intros d0 o0 H.
      cbn [leading_inserts app]. rewrite app_assoc. apply Pb.
      eapply run_append_ok; [exact H | apply run_insert_one].
    + intros E. apply run_insert_inv in HA as (ma' & -> & HA).
      destruct (IH B t _ _ d ma' mb ra rb HA HB E) as [rest P].
      exists rest. intros d0 o0 H. cbn [leading_inserts].
      rewrite <- (app_assoc u), app_assoc. apply P.
      eapply run_append_ok; [exact H | now apply run_retain_one_front].
    + intros E.
      destruct (transform_loop_spec (S (S (length A + length B)))
                  (Cursors (Some (Delete n)) A None B)
                  (append a_prime (Retain (length t))) (append b_prime (Insert t))
                  d ma mb) as [_ P];
        [unfold remaining; simpl; lia | exact HA | exact HB |].
      destruct (P ra rb E) as (r & _ & Pb). exists r. intros d0 o0 H.
      cbn [leading_inserts app]. rewrite app_assoc. apply Pb.
      eapply run_append_ok; [exact H | apply run_insert_one].
Qed.

Lemma transform_insert_insert s t A B D DA DB S1' S2' :
  run A D = Ok (DA, []) -> run B D = Ok (DB, []) ->
  transform (Insert s :: A) (Insert t :: B) = Ok (S1', S2') ->
  exists rest,
    run S2' (s ++ DA) = Ok (s ++ leading_inserts A ++ t ++ rest, []).
Proof.
  intros HA HB. unfold transform. rewrite transform_loop_unfold.
  unfold transform_step. cbn [fetch next a iter_a b iter_b]. intros E.
  destruct (transform_loop_insert_pending A B t _ _ D DA DB S1' S2' HA HB E)
    as [rest P].
  exists rest. apply P.
  apply (run_append_ok [] (Retain (length s)) (s ++ DA) [] (s ++ DA) s DA eq_refl).
  now apply run_retain_one_front.
Qed.

Lemma run_insert_cons s ops d o :
  run ops d = Ok (o, []) -> run (Insert s :: ops) d = Ok (s ++ o, []).
Proof. intros H. simpl. now rewrite H. Qed.

(** C5, the tie-break of [transform]: when both operations begin with an
    Insert, the text [s] that A inserts there (followed by what further
    Inserts of A add at the same place) comes before the text [t] of B in
    the document that [compose(A, B')] gives; this for all valid A and B
    whenever the calls return, and they do return when no operation is
    empty.  In particular A = [Insert("1"), Retain(2)] and
    B = [Insert("2"), Retain(2)] on "ab" give "12ab". *)
Theorem transform_tie_break :
  (forall (D s t : list ascii) (A B : TextOperation.t),
     valid (Insert s :: A) D -> valid (Insert t :: B) D ->
     (forall A' B' X R,
        transform (Insert s :: A) (Insert t :: B) = Ok (A', B') ->
        compose (Insert s :: A) B' = Ok X -> call X D = Ok R ->
        exists rest, R = s ++ leading_inserts A ++ t ++ rest) /\
     (Forall nonzero (Insert s :: A) -> Forall nonzero (Insert t :: B) ->
      exists A' B' X rest,
        transform (Insert s :: A) (Insert t :: B) = Ok (A', B') /\
        compose (Insert s :: A) B' = Ok X /\
        call X D = Ok (s ++ leading_inserts A ++ t ++ rest))) /\
  (exists A' B' X,
     transform [Insert (text "1"); Retain 2] [Insert (text "2"); Retain 2] =
       Ok (A', B') /\
     compose [Insert (text "1"); Retain 2] B' = Ok X /\
     call X (text "ab") = Ok (text "12ab")).
Proof.
  split.
  - intros D s t A B VA VB.
    assert (VA' : valid A D) by exact VA. assert (VB' : valid B D) by exact VB.
    destruct (run_valid A D VA') as [DA HA], (run_valid B D VB') as [DB HB].
    pose proof (run_insert_cons s A D DA HA) as HA1.
    pose proof (run_insert_cons t B D DB HB) as HB1.
    assert (Shape : forall A' B' X,
              transform (Insert s :: A) (Insert t :: B) = Ok (A', B') ->
              compose (Insert s :: A) B' = Ok X ->
              exists rest, call X D = Ok (s ++ leading_inserts A ++ t ++ rest)).
    { intros A' B' X E EX.
      destruct (transform_insert_insert s t A B D DA DB A' B' HA HB E) as [rest HR].
      exists rest.
      destruct (compose_spec (Insert s :: A) B' D (s ++ DA) _ HA1 HR) as [_ P].
      exact (P X EX). }
    split.
    + intros A' B' X R E EX HX. destruct (Shape A' B' X E EX) as [rest H].
      exists rest. congruence.
    + intros NA NB.
      destruct (transform_spec _ _ D _ _ HA1 HB1) as [T P].
      destruct (T NA NB) as [[A' B'] E].
      destruct (P A' B' E) as (_ & NB' & R & _ & HR).
      destruct (compose_spec (Insert s :: A) B' D (s ++ DA) R HA1 HR) as [TX _].
      destruct (TX NA NB') as [X EX].
      destruct (Shape A' B' X E EX) as [rest H].
      exists A', B', X, rest. auto.
  - exists [Insert (text "1"); Retain 3], [Retain 1; Insert (text "2"); Retain 2],
      [Insert (text "12"); Retain 2].
    repeat split.
Qed.

Lemma transform_tie_break_witness :
  valid (Insert (text "1") :: [Retain 2]) (text "ab") /\
  valid (Insert (text "2") :: [Retain 2]) (text "ab") /\
  exists A' B' X rest,
    transform (Insert (text "1") :: [Retain 2]) (Insert (text "2") :: [Retain 2]) =
      Ok (A', B') /\
    compose (Insert (text "1") :: [Retain 2]) B' = Ok X /\
    call X (text "ab") =
      Ok (text "1" ++ leading_inserts [Retain 2] ++ text "2" ++ rest).
Proof.
  split; [reflexivity|]. split; [reflexivity|].
  apply (proj2 (proj1 transform_tie_break (text "ab") (text "1") (text "2")
                  [Retain 2] [Retain 2] eq_refl eq_refl));
    repeat constructor; discriminate.
Defined.

(** * Further properties of the operations *)

(** ** Equality *)

Lemma str_eq_iff s1 s2 : str_eq s1 s2 = true <-> s1 = s2.
Proof.
  revert s2; induction s1 as [|c1 s1 IH]; intros [|c2 s2]; simpl;
    try (split; [discriminate | congruence]); [tauto|].
  rewrite andb_true_iff, Ascii.eqb_eq, IH. split; [intros [-> ->] | intros [= -> ->]]; auto.
Qed.

Lemma op_eq_iff o1 o2 : op_eq o1 o2 = true <-> o1 = o2.
Proof.
  destruct o1 as [n|s|n], o2 as [m|u|m]; simpl;
    rewrite ?Nat.eqb_eq, ?str_eq_iff; split; congruence.
Qed.

(** X1, [__eq__]: two operation sequences are [==] exactly when they hold
    the same operations, class by class and payload by payload, in the same
    order. *)
Theorem eq_iff_same_operations (S1 S2 : TextOperation.t) :
  eq S1 S2 = true <-> S1 = S2.
Proof.
  revert S2; induction S1 as [|o1 S1 IH]; intros [|o2 S2]; simpl;
    try (split; [discriminate | congruence]); [tauto|].
  rewrite andb_true_iff, op_eq_iff, IH.
  split; [intros [-> ->] | intros [= -> ->]]; auto.
Qed.

(** ** The single operations *)

(** X2, [shorten]: for [n] within the length of the operation, shortening
    by [n] takes exactly [n] off the length, and merging the part taken off
    back in front gives the operation again. *)
Theorem shorten_takes_front (o : op) (n : nat) :
  n <= len o ->
  n + len (shorten o n) = len o /\
  match o with
  | Retain _ => merge (Retain n) (shorten o n)
  | Insert str => merge (Insert (firstn n str)) (shorten o n)
  | Delete _ => merge (Delete n) (shorten o n)
  end = o.
Proof.
  intros H. split; [rewrite shorten_len; lia|].
  destruct o as [m|s|m]; simpl in *.
  - f_equal. lia.
  - now rewrite firstn_skipn.
  - f_equal. lia.
Qed.

Lemma shorten_takes_front_witness :
  2 <= len (Insert (text "hello")) /\
  2 + len (shorten (Insert (text "hello")) 2) = len (Insert (text "hello")) /\
  merge (Insert (firstn 2 (text "hello"))) (shorten (Insert (text "hello")) 2) =
  Insert (text "hello").
Proof.
  split; [simpl; lia|].
  apply (shorten_takes_front (Insert (text "hello")) 2). simpl. lia.
Defined.

(** X3, [_shorten_ops]: the two operations lose the length of the shorter
    one; what is left of the longer one keeps its class and is never empty,
    and the shorter one (both, when the lengths are equal) is gone. *)
Theorem shorten_ops_cancels (a0 b0 : op) :
  let (a', b') := _shorten_ops a0 b0 in
  pending_len a' = len a0 - len b0 /\
  pending_len b' = len b0 - len a0 /\
  (a' = None \/ b' = None) /\
  (forall o, a' = Some o -> same_class a0 o = true /\ len o <> 0) /\
  (forall o, b' = Some o -> same_class b0 o = true /\ len o <> 0).
Proof.
  unfold _shorten_ops.
  destruct (Nat.eqb_spec (len a0) (len b0)) as [E|E]; simpl.
  - repeat split; auto; try lia; discriminate.
  - destruct (Nat.ltb_spec (len b0) (len a0)); simpl; rewrite ?shorten_len;
      repeat split; auto; try lia; try discriminate;
      try (injection H0 as <-); try (injection H1 as <-);
      rewrite ?shorten_len; try lia.
    + destruct a0; reflexivity.
    + destruct b0; reflexivity.
Qed.

(** ** Applying an operation *)




(** X6, [append] and the lengths: whether the operation is dropped, merged
    or stored, the sequence reads, writes and changes the length by what it
    did before plus what the operation does. *)
Theorem append_adds_lengths (S : TextOperation.t) (o : op) :
  base_len (append S o) = base_len S + base_len [o] /\
  target_len (append S o) = target_len S + target_len [o] /\
  len_difference (append S o) = (len_difference S + op_len_difference o)%Z.
Proof.
  split; [apply base_len_append|]. split; [apply target_len_append|].
  apply len_difference_append.
Qed.

(** ** Normal form *)

Lemma alternating_app_r p q : alternating (p ++ q) -> alternating q.
Proof.
  induction p as [|x p IH]; [auto|]. intros H. apply IH.
  destruct p as [|y p]; simpl in *.
  - destruct q; [exact I | apply H].
  - apply H.
Qed.

Lemma fold_append_normal S :
  forall acc, Forall nonzero (acc ++ S) -> alternating (acc ++ S) ->
              fold_left append S acc = acc ++ S.
Proof.
  induction S as [|x S IH]; intros acc N A; simpl; [now rewrite app_nil_r|].
  assert (E : append acc x = acc ++ [x]).
  { unfold append.
    assert (Nx : nonzero x).
    { apply Forall_app in N as [_ N]. now inversion N. }
    destruct (Nat.eqb_spec (len x) 0) as [Z|_]; [contradiction|].
    pose proof (pop_inv acc) as P.
    destruct (pop acc) as [[init last]|]; [|reflexivity]. subst acc.
    rewrite <- app_assoc in A. apply alternating_app_r in A.
    destruct A as [C _]. now rewrite C. }
  rewrite E, IH; rewrite <- app_assoc; auto.
Qed.

(** X7, [append] on a sequence already in normal form: appending, one by
    one, the elements of a sequence without empty operations and without two
    neighbours of one class builds that very sequence. *)
Theorem append_rebuilds_normal_form (S : TextOperation.t) :
  Forall nonzero S -> alternating S -> fold_left append S [] = S.
Proof. intros N A. exact (fold_append_normal S [] N A). Qed.

Lemma append_rebuilds_normal_form_witness :
  Forall nonzero [Retain 2; Insert (text "ab"); Delete 1; Retain 1] /\
  alternating [Retain 2; Insert (text "ab"); Delete 1; Retain 1] /\
  fold_left append [Retain 2; Insert (text "ab"); Delete 1; Retain 1] [] =
  [Retain 2; Insert (text "ab"); Delete 1; Retain 1].
Proof.
  assert (N : Forall nonzero [Retain 2; Insert (text "ab"); Delete 1; Retain 1])
    by (repeat constructor; discriminate).
  assert (A : alternating [Retain 2; Insert (text "ab"); Delete 1; Retain 1])
    by (simpl; auto).
  split; [exact N|]. split; [exact A|].
  exact (append_rebuilds_normal_form _ N A).
Defined.

Lemma built_nonzero S : built S -> Forall nonzero S.
Proof. induction 1; [constructor | now apply append_nonzero]. Qed.

Lemma built_fold l acc : built acc -> built (fold_left append l acc).
Proof.
  revert acc; induction l as [|o l IH]; intros acc B; simpl; [assumption|].
  apply IH. now constructor.
Qed.

Lemma compose_step_built c operation :
  built operation ->
  match compose_step c operation with
  | Continue (_, operation') => built operation'
  | Break res => built res
  | Raised _ => True
  end.
Proof.
  intros Bu. unfold compose_step.
  destruct (fetch (a c) (iter_a c)) as [x ia], (fetch (b c) (iter_b c)) as [y ib].
  destruct x as [[n|s|n]|], y as [[m|u|m]|];
    try destruct (_shorten_ops _ _) as [a' b'];
    auto using built_append.
Qed.

Lemma compose_loop_built k :
  forall c operation res,
    remaining c < k -> built operation ->
    compose_loop c operation = Ok res -> built res.
Proof.
  induction k as [|k IH]; intros c operation res Hk Bu; [lia|].
  rewrite compose_loop_unfold.
  pose proof (compose_step_decreases c operation) as Dec.
  pose proof (compose_step_built c operation Bu) as St.
  destruct (compose_step c operation) as [[c' o']|res0|e]; [| |discriminate].
  - specialize (Dec c' o' eq_refl). apply IH; [lia | assumption].
  - now intros [= <-].
Qed.

Lemma transform_step_built c a_prime b_prime :
  built a_prime -> built b_prime ->
  match transform_step c (a_prime, b_prime) with
  | Continue (_, (a_prime', b_prime')) => built a_prime' /\ built b_prime'
  | Break (ra, rb) => built ra /\ built rb
  | Raised _ => True
  end.
Proof.
  intros Ba Bb. unfold transform_step.
  destruct (fetch (a c) (iter_a c)) as [x ia], (fetch (b c) (iter_b c)) as [y ib].
  destruct x as [[n|s|n]|], y as [[m|u|m]|];
    try destruct (_shorten_ops _ _) as [a' b'];
    auto using built_append.
Qed.

Lemma transform_loop_built k :
  forall c a_prime b_prime ra rb,
    remaining c < k -> built a_prime -> built b_prime ->
    transform_loop c (a_prime, b_prime) = Ok (ra, rb) -> built ra /\ built rb.
Proof.
  induction k as [|k IH]; intros c a_prime b_prime ra rb Hk Ba Bb; [lia|].
  rewrite transform_loop_unfold.
  pose proof (transform_step_decreases c (a_prime, b_prime)) as Dec.
  pose proof (transform_step_built c a_prime b_prime Ba Bb) as St.
  destruct (transform_step c (a_prime, b_prime)) as [[c' [ap' bp']]|[ra0 rb0]|e];
    [| |discriminate].
  - specialize (Dec c' (ap', bp') eq_refl). destruct St. apply IH; auto. lia.
  - now intros [= <- <-].
Qed.

(** X8, the results are in normal form: whatever the sequences given, the
    sequence [invert] returns, the one [compose] returns and the two
    [transform] returns hold no empty operation and no two neighbours of one
    class. *)
Theorem results_in_normal_form (S1 S2 : TextOperation.t) (D : list ascii) :
  (forall inverse, invert S1 D = Ok inverse ->
     Forall nonzero inverse /\ alternating inverse) /\
  (forall S12, compose S1 S2 = Ok S12 ->
     Forall nonzero S12 /\ alternating S12) /\
  (forall S1' S2', transform S1 S2 = Ok (S1', S2') ->
     (Forall nonzero S1' /\ alternating S1') /\
     (Forall nonzero S2' /\ alternating S2')).
Proof.
  assert (Hk : remaining (Cursors None S1 None S2) < S (length S1 + length S2))
    by (unfold remaining; simpl; lia).
  repeat split.
  1,2: rewrite invert_ok in H; injection H as <-.
  1: apply built_nonzero, built_fold, built_empty.
  1: apply built_alternating, built_fold, built_empty.
  1,2: pose proof (compose_loop_built _ _ _ _ Hk built_empty H) as Bu.
  1: now apply built_nonzero.
  1: now apply built_alternating.
  all: destruct (transform_loop_built _ _ _ _ _ _ Hk built_empty built_empty H)
         as [Ba Bb];
       auto using built_nonzero, built_alternating.
Qed.

(** ** Lengths through [compose] *)

Lemma base_len_cons o ops :
  base_len (o :: ops) = base_len [o] + base_len ops.
Proof. exact (base_len_app [o] ops). Qed.

Lemma target_len_cons o ops :
  target_len (o :: ops) = target_len [o] + target_len ops.
Proof. exact (target_len_app [o] ops). Qed.

(** Unfolds the lengths of the pending elements down to arithmetic. *)
Ltac lens :=
  rewrite ?base_len_append, ?target_len_append;
  repeat match goal with
         | |- context [base_len (?o :: ?l)] =>
             lazymatch l with
             | [] => fail
             | _ => rewrite (base_len_cons o l)
             end
         | |- context [target_len (?o :: ?l)] =>
             lazymatch l with
             | [] => fail
             | _ => rewrite (target_len_cons o l)
             end
         end;
  unfold base_len, target_len; simpl;
  rewrite ?length_skipn, ?length_firstn; try lia.

Lemma compose_step_lengths c operation c' operation' :
  compose_step c operation = Continue (c', operation') ->
  base_len operation' + base_len (unread (a c') (iter_a c')) =
    base_len operation + base_len (unread (a c) (iter_a c)) /\
  target_len operation' + target_len (unread (b c') (iter_b c')) =
    target_len operation + target_len (unread (b c) (iter_b c)) /\
  target_len (unread (a c') (iter_a c')) + base_len (unread (b c) (iter_b c)) =
    target_len (unread (a c) (iter_a c)) + base_len (unread (b c') (iter_b c')).
Proof.
  unfold compose_step.
  rewrite <- (fetch_unread (a c)), <- (fetch_unread (b c)).
  destruct (fetch (a c) (iter_a c)) as [x ia], (fetch (b c) (iter_b c)) as [y ib].
  cbn [fst snd].
  destruct x as [[n|s|n]|], y as [[m|u|m]|]; unfold _shorten_ops;
    cbn [len shorten unread];
    repeat match goal with
           | |- context [?p =? ?q] => destruct (Nat.eqb_spec p q)
           | |- context [?p <? ?q] => destruct (Nat.ltb_spec p q)
           end;
    intros St; try discriminate St; injection St as <- <-;
    cbn [a iter_a b iter_b unread]; repeat split; lens.
Qed.

Lemma compose_loop_lengths k :
  forall c operation res,
    remaining c < k ->
    compose_loop c operation = Ok res ->
    base_len res = base_len operation + base_len (unread (a c) (iter_a c)) /\
    target_len res = target_len operation + target_len (unread (b c) (iter_b c)) /\
    target_len (unread (a c) (iter_a c)) = base_len (unread (b c) (iter_b c)).
Proof.
  induction k as [|k IH]; intros c operation res Hk; [lia|].
  rewrite compose_loop_unfold.
  pose proof (compose_step_decreases c operation) as Dec.
  pose proof (compose_step_lengths c operation) as Len.
  destruct (compose_step c operation) as [[c' o']|res0|e] eqn:St; [| |discriminate].
  - intros E. specialize (Dec c' o' eq_refl).
    destruct (Len c' o' eq_refl) as (L1 & L2 & L3).
    destruct (IH c' o' res ltac:(lia) E) as (I1 & I2 & I3). lia.
  - intros [= <-]. apply compose_step_break_iff in St as (-> & Ea & Eb).
    unfold exhausted in *.
    rewrite <- (fetch_unread (a c)), <- (fetch_unread (b c)).
    destruct (fetch (a c) (iter_a c)) as [x ia] eqn:Fa,
      (fetch (b c) (iter_b c)) as [y ib] eqn:Fb.
    simpl in Ea, Eb. subst x y.
    apply fetch_none in Fa as (_ & _ & ->). apply fetch_none in Fb as (_ & _ & ->).
    unfold base_len, target_len. simpl. lia.
Qed.

(** X9, the lengths of a composition: whenever [compose(A, B)] returns, B
    reads exactly what A writes, and the result reads what A reads, writes
    what B writes and changes the length by the sum of the two changes. *)
Theorem compose_lengths (A B C : TextOperation.t) :
  compose A B = Ok C ->
  target_len A = base_len B /\
  base_len C = base_len A /\
  target_len C = target_len B /\
  len_difference C = (len_difference A + len_difference B)%Z.
Proof.
  intros E.
  destruct (compose_loop_lengths (S (length A + length B))
              (Cursors None A None B) [] C) as (L1 & L2 & L3);
    [unfold remaining; simpl; lia | exact E |].
  cbn [a iter_a b iter_b unread] in L1, L2, L3.
  change (base_len []) with 0 in L1. change (target_len []) with 0 in L2.
  rewrite !len_difference_lens. repeat split; lia.
Qed.

Lemma compose_lengths_witness :
  compose [Retain 2; Delete 3] [Retain 2; Insert (text "!")] =
    Ok [Retain 2; Delete 3; Insert (text "!")] /\
  target_len [Retain 2; Delete 3] = base_len [Retain 2; Insert (text "!")] /\
  base_len [Retain 2; Delete 3; Insert (text "!")] = base_len [Retain 2; Delete 3] /\
  target_len [Retain 2; Delete 3; Insert (text "!")] =
    target_len [Retain 2; Insert (text "!")] /\
  len_difference [Retain 2; Delete 3; Insert (text "!")] =
    (len_difference [Retain 2; Delete 3] +
     len_difference [Retain 2; Insert (text "!")])%Z.
Proof.
  split; [reflexivity|].
  apply (compose_lengths [Retain 2; Delete 3] [Retain 2; Insert (text "!")]).
  reflexivity.
Defined.





(** ** Lengths through [transform] *)

Lemma transform_step_lengths c a_prime b_prime c' a_prime' b_prime' :
  transform_step c (a_prime, b_prime) = Continue (c', (a_prime', b_prime')) ->
  base_len a_prime' + target_len (unread (b c') (iter_b c')) =
    base_len a_prime + target_len (unread (b c) (iter_b c)) /\
  base_len b_prime' + target_len (unread (a c') (iter_a c')) =
    base_len b_prime + target_len (unread (a c) (iter_a c)) /\
  target_len a_prime' + target_len b_prime =
    target_len a_prime + target_len b_prime' /\
  base_len (unread (a c') (iter_a c')) + base_len (unread (b c) (iter_b c)) =
    base_len (unread (a c) (iter_a c)) + base_len (unread (b c') (iter_b c')).
Proof.
  unfold transform_step.
  rewrite <- (fetch_unread (a c)), <- (fetch_unread (b c)).
  destruct (fetch (a c) (iter_a c)) as [x ia], (fetch (b c) (iter_b c)) as [y ib].
  cbn [fst snd].
  destruct x as [[n|s|n]|], y as [[m|u|m]|]; unfold _shorten_ops;
    cbn [len shorten unread];
    repeat match goal with
           | |- context [?p =? ?q] => destruct (Nat.eqb_spec p q)
           | |- context [?p <? ?q] => destruct (Nat.ltb_spec p q)
           end;
    intros St; try discriminate St; injection St as <- <- <-;
    cbn [a iter_a b iter_b unread]; repeat split; lens.
Qed.

Lemma transform_step_break_iff c primes res :
  transform_step c primes = Break res <->
  res = primes /\ exhausted (a c) (iter_a c) /\ exhausted (b c) (iter_b c).
Proof.
  unfold transform_step, exhausted. destruct primes as [a_prime b_prime].
  destruct (fetch (a c) (iter_a c)) as [x ia], (fetch (b c) (iter_b c)) as [y ib].
  cbn [fst snd].
  destruct x as [[n|s|n]|], y as [[m|u|m]|];
    try destruct (_shorten_ops _ _) as [a' b'];
    (split;
     [ intros St; try discriminate St; injection St as <-; auto
     | intros (-> & E1 & E2); try discriminate E1; try discriminate E2;
       reflexivity ]).
Qed.

Lemma exhausted_unread cur it : exhausted cur it -> unread cur it = [].
Proof.
  unfold exhausted. rewrite <- (fetch_unread cur it).
  destruct (fetch cur it) as [x it'] eqn:F. simpl. intros ->.
  now apply fetch_none in F as (_ & _ & ->).
Qed.

Lemma transform_loop_lengths k :
  forall c a_prime b_prime ra rb,
    remaining c < k ->
    transform_loop c (a_prime, b_prime) = Ok (ra, rb) ->
    base_len ra = base_len a_prime + target_len (unread (b c) (iter_b c)) /\
    base_len rb = base_len b_prime + target_len (unread (a c) (iter_a c)) /\
    target_len ra + target_len b_prime = target_len a_prime + target_len rb /\
    base_len (unread (a c) (iter_a c)) = base_len (unread (b c) (iter_b c)).
Proof.
  induction k as [|k IH]; intros c a_prime b_prime ra rb Hk; [lia|].
  rewrite transform_loop_unfold.
  pose proof (transform_step_decreases c (a_prime, b_prime)) as Dec.
  pose proof (transform_step_lengths c a_prime b_prime) as Len.
  destruct (transform_step c (a_prime, b_prime)) as [[c' [ap' bp']]|res0|e] eqn:St;
    [| |discriminate].
  - intros E. specialize (Dec c' (ap', bp') eq_refl).
    destruct (Len c' ap' bp' eq_refl) as (L1 & L2 & L3 & L4).
    destruct (IH c' ap' bp' ra rb ltac:(lia) E) as (I1 & I2 & I3 & I4). lia.
  - intros [= ->]. apply transform_step_break_iff in St as (E & Ea & Eb).
    injection E as <- <-.
    rewrite (exhausted_unread _ _ Ea), (exhausted_unread _ _ Eb).
    change (base_len []) with 0. change (target_len []) with 0. lia.
Qed.

(** X11, the lengths of a transformed pair: whenever [transform(A, B)]
    returns [(A', B')], A and B read the same length, A' reads what B
    writes, B' reads what A writes, and A' and B' write the same length. *)
Theorem transform_lengths (A B A' B' : TextOperation.t) :
  transform A B = Ok (A', B') ->
  base_len A = base_len B /\
  base_len A' = target_len B /\
  base_len B' = target_len A /\
  target_len A' = target_len B'.
Proof.
  intros E.
  destruct (transform_loop_lengths (S (length A + length B))
              (Cursors None A None B) [] [] A' B') as (L1 & L2 & L3 & L4);
    [unfold remaining; simpl; lia | exact E |].
  cbn [a iter_a b iter_b unread] in L1, L2, L3, L4.
  change (base_len []) with 0 in *. change (target_len []) with 0 in *.
  repeat split; lia.
Qed.

Lemma transform_lengths_witness :
  transform [Insert (text "X"); Retain 2; Delete 3]
            [Delete 1; Retain 4; Insert (text "Y")] =
    Ok ([Insert (text "X"); Retain 1; Delete 3; Retain 1],
        [Retain 1; Delete 1; Retain 1; Insert (text "Y")]) /\
  base_len [Insert (text "X"); Retain 2; Delete 3] =
    base_len [Delete 1; Retain 4; Insert (text "Y")] /\
  base_len [Insert (text "X"); Retain 1; Delete 3; Retain 1] =
    target_len [Delete 1; Retain 4; Insert (text "Y")] /\
  base_len [Retain 1; Delete 1; Retain 1; Insert (text "Y")] =
    target_len [Insert (text "X"); Retain 2; Delete 3] /\
  target_len [Insert (text "X"); Retain 1; Delete 3; Retain 1] =
    target_len [Retain 1; Delete 1; Retain 1; Insert (text "Y")].
Proof.
  split; [reflexivity|].
  apply (transform_lengths [Insert (text "X"); Retain 2; Delete 3]
           [Delete 1; Retain 4; Insert (text "Y")]).
  reflexivity.
Defined.





(** ** Transformed, composed and inverted operations at work *)

(** X13, what the docstring of [transform] promises: for A and B valid
    against one document, whenever [transform(A, B)] returns [(A', B')], B'
    applies to the output of A, A' applies to the output of B, and B' after
    A gives the same document as A' after B. *)
Theorem transform_both_orders_agree (D : list ascii)
    (A B A' B' : TextOperation.t) :
  valid A D -> valid B D -> transform A B = Ok (A', B') ->
  exists DA DB R,
    call A D = Ok DA /\ call B D = Ok DB /\
    call B' DA = Ok R /\ call A' DB = Ok R.
Proof.
  intros VA VB E.
  destruct (run_valid A D VA) as [DA HA], (run_valid B D VB) as [DB HB].
  destruct (transform_spec A B D DA DB HA HB) as [_ P].
  destruct (P A' B' E) as (_ & _ & R & RA & RB).
  exists DA, DB, R. repeat split; now apply call_ok_iff.
Qed.

Lemma transform_both_orders_agree_witness :
  valid [Insert (text "X"); Retain 2; Delete 3] (text "hello") /\
  valid [Delete 1; Retain 4; Insert (text "Y")] (text "hello") /\
  exists DA DB R,
    call [Insert (text "X"); Retain 2; Delete 3] (text "hello") = Ok DA /\
    call [Delete 1; Retain 4; Insert (text "Y")] (text "hello") = Ok DB /\
    call [Retain 1; Delete 1; Retain 1; Insert (text "Y")] DA = Ok R /\
    call [Insert (text "X"); Retain 1; Delete 3; Retain 1] DB = Ok R.
Proof.
  split; [reflexivity|]. split; [reflexivity|].
  apply (transform_both_orders_agree (text "hello")
           [Insert (text "X"); Retain 2; Delete 3]
           [Delete 1; Retain 4; Insert (text "Y")]); reflexivity.
Defined.

Lemma compose_nonzero A B C : compose A B = Ok C -> Forall nonzero C.
Proof.
  intros E. apply built_nonzero.
  apply (compose_loop_built (S (length A + length B))
           (Cursors None A None B) [] C);
    [unfold remaining; simpl; lia | constructor | exact E].
Qed.

(** X14, [+] is associative on what it does: for three operations without
    empty elements that follow each other on a document, [(A + B) + C] and
    [A + (B + C)] both return, and applying either to the document gives
    what applying A, then B, then C gives. *)
Theorem add_associative (D DA DB : list ascii) (A B C : TextOperation.t) :
  Forall nonzero A -> Forall nonzero B -> Forall nonzero C ->
  call A D = Ok DA -> call B DA = Ok DB -> valid C DB ->
  exists AB BC L R DC,
    add A B = Ok AB /\ add AB C = Ok L /\
    add B C = Ok BC /\ add A BC = Ok R /\
    call C DB = Ok DC /\ call L D = Ok DC /\ call R D = Ok DC.
Proof.
  unfold add. intros NA NB NC HA HB VC.
  apply call_ok_iff in HA, HB. destruct (run_valid C DB VC) as [DC HC].
  destruct (compose_spec A B D DA DB HA HB) as [T1 P1].
  destruct (T1 NA NB) as [AB E1]. pose proof (P1 AB E1) as HAB.
  apply call_ok_iff in HAB.
  destruct (compose_spec AB C D DB DC HAB HC) as [T2 P2].
  destruct (T2 (compose_nonzero A B AB E1) NC) as [L E2].
  destruct (compose_spec B C DA DB DC HB HC) as [T3 P3].
  destruct (T3 NB NC) as [BC E3]. pose proof (P3 BC E3) as HBC.
  apply call_ok_iff in HBC.
  destruct (compose_spec A BC D DA DC HA HBC) as [T4 P4].
  destruct (T4 NA (compose_nonzero B C BC E3)) as [R E4].
  exists AB, BC, L, R, DC. repeat split; auto. now apply call_ok_iff.
Qed.

Lemma add_associative_witness :
  call [Retain 2; Delete 3] (text "hello") = Ok (text "he") /\
  call [Retain 2; Insert (text "y")] (text "he") = Ok (text "hey") /\
  valid [Delete 1; Retain 2] (text "hey") /\
  exists AB BC L R DC,
    add [Retain 2; Delete 3] [Retain 2; Insert (text "y")] = Ok AB /\
    add AB [Delete 1; Retain 2] = Ok L /\
    add [Retain 2; Insert (text "y")] [Delete 1; Retain 2] = Ok BC /\
    add [Retain 2; Delete 3] BC = Ok R /\
    call [Delete 1; Retain 2] (text "hey") = Ok DC /\
    call L (text "hello") = Ok DC /\ call R (text "hello") = Ok DC.
Proof.
  split; [reflexivity|]. split; [reflexivity|]. split; [reflexivity|].
  apply (add_associative (text "hello") (text "he") (text "hey")
           [Retain 2; Delete 3] [Retain 2; Insert (text "y")] [Delete 1; Retain 2]);
    try reflexivity; repeat constructor; discriminate.
Defined.

Lemma invert_run S D out :
  run S D = Ok (out, []) ->
  run (fold_left append (inverse_ops S D) []) out = Ok (D, []).
Proof.
  intros R. rewrite run_fold_append. simpl.
  destruct (run_inverse_ops _ _ _ _ R) as (c & Hc & Hx).
  rewrite app_nil_r in Hc. subst c. specialize (Hx []).
  now rewrite app_nil_r in Hx.
Qed.

(** X15, an operation followed by its inverse: for S valid against D and
    without empty operations, [compose(S, S.invert(D))] returns, and the
    composed operation leaves D as it is. *)
Theorem compose_with_inverse_is_identity (S : TextOperation.t) (D : list ascii) :
  Forall nonzero S -> valid S D ->
  exists inverse C,
    invert S D = Ok inverse /\ compose S inverse = Ok C /\ call C D = Ok D.
Proof.
  intros N V. destruct (run_valid S D V) as [out R].
  pose proof (invert_run S D out R) as RI.
  exists (fold_left append (inverse_ops S D) []).
  destruct (compose_spec S _ D out D R RI) as [T P].
  destruct T as [C E]; [exact N | |].
  - apply built_nonzero, built_fold, built_empty.
  - exists C. split; [apply invert_ok|]. auto.
Qed.

Lemma compose_with_inverse_is_identity_witness :
  Forall nonzero [Retain 1; Delete 3; Insert (text "ipp"); Retain 1] /\
  valid [Retain 1; Delete 3; Insert (text "ipp"); Retain 1] (text "hello") /\
  exists inverse C,
    invert [Retain 1; Delete 3; Insert (text "ipp"); Retain 1] (text "hello") =
      Ok inverse /\
    compose [Retain 1; Delete 3; Insert (text "ipp"); Retain 1] inverse = Ok C /\
    call C (text "hello") = Ok (text "hello").
Proof.
  assert (N : Forall nonzero [Retain 1; Delete 3; Insert (text "ipp"); Retain 1])
    by (repeat constructor; discriminate).
  split; [exact N|]. split; [reflexivity|].
  apply (compose_with_inverse_is_identity _ (text "hello") N). reflexivity.
Defined.

(** X16, undoing the undo: for S valid against D, the inverse of
    [S.invert(D)], taken against the document [S(D)] it applies to, does to
    D what S does. *)
Theorem invert_twice_redoes (S : TextOperation.t) (D : list ascii) :
  valid S D ->
  exists out inverse redo,
    call S D = Ok out /\ invert S D = Ok inverse /\
    invert inverse out = Ok redo /\ call redo D = Ok out.
Proof.
  intros V. destruct (run_valid S D V) as [out R].
  pose proof (invert_run S D out R) as RI.
  exists out, (fold_left append (inverse_ops S D) []),
    (fold_left append (inverse_ops (fold_left append (inverse_ops S D) []) out) []).
  split; [now apply call_ok_iff|]. split; [apply invert_ok|].
  split; [apply invert_ok|]. apply call_ok_iff. now apply invert_run.
Qed.

Lemma invert_twice_redoes_witness :
  valid [Retain 1; Delete 3; Insert (text "ipp"); Retain 1] (text "hello") /\
  exists out inverse redo,
    call [Retain 1; Delete 3; Insert (text "ipp"); Retain 1] (text "hello") = Ok out /\
    invert [Retain 1; Delete 3; Insert (text "ipp"); Retain 1] (text "hello") =
      Ok inverse /\
    invert inverse out = Ok redo /\ call redo (text "hello") = Ok out.
Proof.
  split; [reflexivity|].
  apply (invert_twice_redoes [Retain 1; Delete 3; Insert (text "ipp"); Retain 1]).
  reflexivity.
Defined.
